(** * go-tagexpr: the struct-tag expression registry and its accessors

    A shallow embedding of [tagexpr.go]: the per-type descriptor cache
    ([VM], [Struct], [Field]), the annotation parser ([parseExprs]), the
    offset-based field getters, the flattening of nested structs
    ([copySubFields]) and the selector resolver ([getValue], [Range]).

    Go's [reflect] and [unsafe] packages are standard-library code; the part
    of them that the program calls is modelled in [Module reflect] over an
    explicit memory. *)

From Stdlib Require Import ZArith Lia SpecFloat Ascii.
From Stdlib Require String.
From stdpp Require Import gmap strings list fin_maps.

Local Open Scope Z_scope.

(** ** Machine words *)

(** [uintptr] is a 64-bit unsigned word; [ptr + f.Offset] wraps around. *)
Definition uintptr := Z.

Definition uintptr_add (a b : uintptr) : uintptr := (a + b) mod 2 ^ 64.

(** ** The fragment of package [reflect] used by the program *)

Module reflect.

Inductive Kind :=
  | Invalid | Bool
  | Int | Int8 | Int16 | Int32 | Int64
  | Uint | Uint8 | Uint16 | Uint32 | Uint64 | Uintptr
  | Float32 | Float64 | Complex64 | Complex128
  | Array | Chan | Func | Interface | Map | Ptr | Slice | String | Struct
  | UnsafePointer.

#[global] Instance Kind_eq_dec : EqDecision Kind.
Proof. solve_decision. Defined.

(** Predeclared types: booleans, numbers, strings, [unsafe.Pointer]. *)
Inductive basic :=
  | BBool
  | BInt | BInt8 | BInt16 | BInt32 | BInt64
  | BUint | BUint8 | BUint16 | BUint32 | BUint64 | BUintptr
  | BFloat32 | BFloat64 | BComplex64 | BComplex128
  | BString | BUnsafePointer.

#[global] Instance basic_eq_dec : EqDecision basic.
Proof. solve_decision. Defined.

(** A [reflect.Type].  A struct type is identified by the text that
    [Type.String()] prints for it, which is also the key of the registry;
    its fields live in the declaration table ([TypeEnv] below), so a struct
    may mention itself behind a pointer. *)
Inductive type :=
  | TBasic (b : basic)
  | TPtr (elem : type)
  | TSlice (elem : type)
  | TArray (len : nat) (elem : type)
  | TMap (key elem : type)
  | TChan (elem : type)
  | TFunc (signature : string)
  | TInterface (name : string)
  | TStruct (name : string).

#[global] Instance type_eq_dec : EqDecision type.
Proof. solve_decision. Defined.

Definition basicKind (b : basic) : Kind :=
  match b with
  | BBool => Bool
  | BInt => Int | BInt8 => Int8 | BInt16 => Int16 | BInt32 => Int32
  | BInt64 => Int64
  | BUint => Uint | BUint8 => Uint8 | BUint16 => Uint16 | BUint32 => Uint32
  | BUint64 => Uint64 | BUintptr => Uintptr
  | BFloat32 => Float32 | BFloat64 => Float64
  | BComplex64 => Complex64 | BComplex128 => Complex128
  | BString => String | BUnsafePointer => UnsafePointer
  end.

(** [Type.Kind()] *)
Definition Type_Kind (t : type) : Kind :=
  match t with
  | TBasic b => basicKind b
  | TPtr _ => Ptr
  | TSlice _ => Slice
  | TArray _ _ => Array
  | TMap _ _ => Map
  | TChan _ => Chan
  | TFunc _ => Func
  | TInterface _ => Interface
  | TStruct _ => Struct
  end.

(** The kinds listed in the numeric [case] of [registerStructLocked],
    [getValue] and [getFloat64]. *)
Definition isInteger (k : Kind) : bool :=
  match k with
  | Int | Int8 | Int16 | Int32 | Int64
  | Uint | Uint8 | Uint16 | Uint32 | Uint64 | Uintptr => true
  | _ => false
  end.

Definition isFloat (k : Kind) : bool :=
  match k with Float32 | Float64 => true | _ => false end.

Definition isNumeric (k : Kind) : bool := isInteger k || isFloat k.

(** *** Run-time data

    A Go value with its type erased.  Integers of every width are [GInt];
    [float32] and [float64] are [GFloat] (a [spec_float] of IEEE 754);
    pointers are addresses into the memory, [0] being nil; a nil slice or
    map has no element list.  Channels, functions and complex numbers are
    [GOpaque]: the program only asks whether they are nil. *)
#[warnings="-register-all"]
Inductive gval :=
  | GBool (b : bool)
  | GInt (z : Z)
  | GFloat (x : spec_float)
  | GString (s : string)
  | GPtr (a : uintptr)
  | GSlice (elems : option (list gval))
  | GArray (elems : list gval)
  | GMap (entries : option (list (gval * gval)))
  | GStruct (fields : list gval)
  | GIface (dyn : option (type * gval))
  | GOpaque (isnil : bool).

(** An [interface{}]: nil, or a dynamic type with its value. *)
Definition iface := option (type * gval).

(** The memory: what is stored at an address.  A struct at address [a] is
    its fields, each stored at [a + Offset]. *)
Abbreviation Mem := (gmap Z gval).

(** Run-time panics (and memory faults, which Go reports as panics). *)
Inductive panic :=
  | ValueError (method : string) (k : Kind)
  | IndexOutOfRange (i : Z) (len : nat)
  | InvalidAddress (a : uintptr)
  | BadMemory
  | NilMethodReceiver
  | ConversionPanic.

Inductive outcome (A : Type) :=
  | Ret (a : A)
  | Panics (p : panic).
Arguments Ret {A} a.
Arguments Panics {A} p.

#[global] Instance outcome_ret : MRet outcome := @Ret.

#[global] Instance outcome_bind : MBind outcome := fun A B f x =>
  match x with
  | Ret a => f a
  | Panics p => Panics p
  end.

(** Dereferencing an address. *)
Definition load (m : Mem) (a : uintptr) : outcome gval :=
  match m !! a with
  | Some g => Ret g
  | None => Panics (InvalidAddress a)
  end.

(** A [reflect.Value]: the zero Value, or a type with the place of the data:
    [At a] is an addressable variable at address [a] (the Value has
    [flagAddr]), [Held g] is a copy carried by the Value. *)
Inductive place :=
  | At (a : uintptr)
  | Held (g : gval).

Inductive Value :=
  | VZero
  | V (t : type) (p : place).

Definition Value_Kind (v : Value) : Kind :=
  match v with
  | VZero => Invalid
  | V t _ => Type_Kind t
  end.

Definition Value_IsValid (v : Value) : bool :=
  match v with VZero => false | V _ _ => true end.

Definition Value_CanAddr (v : Value) : bool :=
  match v with V _ (At _) => true | _ => false end.

(** The data a valid Value stands for. *)
Definition fetch (m : Mem) (p : place) : outcome gval :=
  match p with
  | At a => load m a
  | Held g => Ret g
  end.

(** [reflect.NewAt(typ, p)]: a pointer Value to the [typ] at [p]. *)
Definition NewAt (typ : type) (p : uintptr) : Value := V (TPtr typ) (Held (GPtr p)).

(** [reflect.ValueOf(i)] *)
Definition ValueOf (i : iface) : Value :=
  match i with
  | None => VZero
  | Some (t, g) => V t (Held g)
  end.

(** [reflect.TypeOf(i)] of a non-nil interface. *)
Definition TypeOf (i : iface) : option type := fst <$> i.

(** [Value.Elem()]: panics unless the kind is Ptr or Interface; a nil
    pointer or interface gives the zero Value. *)
Definition Value_Elem (m : Mem) (v : Value) : outcome Value :=
  match v with
  | V (TPtr t) p =>
      g ← fetch m p;
      match g with
      | GPtr a => if decide (a = 0) then Ret VZero else Ret (V t (At a))
      | _ => Panics (BadMemory)
      end
  | V (TInterface _) p =>
      g ← fetch m p;
      match g with
      | GIface None => Ret VZero
      | GIface (Some (t, x)) => Ret (V t (Held x))
      | _ => Panics (BadMemory)
      end
  | _ => Panics (ValueError "reflect.Value.Elem" (Value_Kind v))
  end.

(** [Value.UnsafeAddr()] of an addressable Value. *)
Definition Value_UnsafeAddr (v : Value) : outcome uintptr :=
  match v with
  | V _ (At a) => Ret a
  | _ => Panics (ValueError "reflect.Value.UnsafeAddr" (Value_Kind v))
  end.

(** [Value.Pointer()]: the pointer held by a Value of kind Ptr. *)
Definition Value_Pointer (m : Mem) (v : Value) : outcome uintptr :=
  match v with
  | V (TPtr _) p =>
      g ← fetch m p;
      match g with
      | GPtr a => Ret a
      | _ => Panics (BadMemory)
      end
  | _ => Panics (ValueError "reflect.Value.Pointer" (Value_Kind v))
  end.

(** [Value.Interface()]: panics on the zero Value; a Value of kind Interface
    gives the interface it holds. *)
Definition Value_Interface (m : Mem) (v : Value) : outcome iface :=
  match v with
  | VZero => Panics (ValueError "reflect.Value.Interface" Invalid)
  | V (TInterface _) p =>
      g ← fetch m p;
      match g with
      | GIface i => Ret i
      | _ => Panics (BadMemory)
      end
  | V t p => g ← fetch m p; Ret (Some (t, g))
  end.

(** [Value.Bool()] and [Value.String()] on Values of those kinds. *)
Definition Value_Bool (m : Mem) (v : Value) : outcome bool :=
  match v with
  | V (TBasic BBool) p =>
      g ← fetch m p;
      match g with GBool b => Ret b | _ => Panics (BadMemory) end
  | _ => Panics (ValueError "reflect.Value.Bool" (Value_Kind v))
  end.

Definition Value_String (m : Mem) (v : Value) : outcome string :=
  match v with
  | V (TBasic BString) p =>
      g ← fetch m p;
      match g with GString s => Ret s | _ => Panics (BadMemory) end
  | VZero => Ret "<invalid Value>"
  | V _ _ => Ret "<Value>"
  end.

(** [Value.Len()] of a slice, array or string. *)
Definition Value_Len (m : Mem) (v : Value) : outcome nat :=
  match v with
  | V t p =>
      g ← fetch m p;
      match Type_Kind t, g with
      | Slice, GSlice None => Ret 0%nat
      | Slice, GSlice (Some l) => Ret (length l)
      | Array, GArray l => Ret (length l)
      | String, GString s => Ret (String.length s)
      | (Slice | Array | String), _ => Panics (BadMemory)
      | k, _ => Panics (ValueError "reflect.Value.Len" k)
      end
  | VZero => Panics (ValueError "reflect.Value.Len" Invalid)
  end.

Definition elemType (t : type) : type :=
  match t with
  | TPtr e | TSlice e | TArray _ e | TMap _ e | TChan e => e
  | _ => TBasic BUint8
  end.

(** [Value.Index(i)]: the bound check is [uint(i) >= uint(len)], so a
    negative [i] panics like one that is too large.  Indexing a string
    gives a byte. *)
Definition Value_Index (m : Mem) (v : Value) (i : Z) : outcome Value :=
  match v with
  | V t p =>
      g ← fetch m p;
      let pick (l : list gval) :=
        if decide (0 <= i < Z.of_nat (length l)) then
          match l !! Z.to_nat i with
          | Some e => Ret (V (elemType t) (Held e))
          | None => Panics (IndexOutOfRange i (length l))
          end
        else Panics (IndexOutOfRange i (length l)) in
      match Type_Kind t, g with
      | Slice, GSlice None => pick []
      | Slice, GSlice (Some l) => pick l
      | Array, GArray l => pick l
      | String, GString s =>
          pick ((fun c => GInt (Z.of_N (N_of_ascii c))) <$> String.list_ascii_of_string s)
      | (Slice | Array | String), _ => Panics (BadMemory)
      | k, _ => Panics (ValueError "reflect.Value.Index" k)
      end
  | VZero => Panics (ValueError "reflect.Value.Index" Invalid)
  end.

(** Equality of map keys (Go's [==] on comparable values; a NaN is equal to
    nothing). *)
Definition key_eqb (x y : gval) : bool :=
  match x, y with
  | GBool a, GBool b => Bool.eqb a b
  | GInt a, GInt b => Z.eqb a b
  | GFloat a, GFloat b => SFeqb a b
  | GString a, GString b => String.eqb a b
  | GPtr a, GPtr b => Z.eqb a b
  | _, _ => false
  end.

Fixpoint mapaccess (l : list (gval * gval)) (k : gval) : option gval :=
  match l with
  | [] => None
  | (k', x) :: l' => if key_eqb k' k then Some x else mapaccess l' k
  end.

(** [Value.MapIndex(key)]: the zero Value when the key is absent or the map
    is nil.  [key] already has the map's key type. *)
Definition Value_MapIndex (m : Mem) (v : Value) (key : Value) : outcome Value :=
  match v, key with
  | V (TMap _ et) p, V _ kp =>
      g ← fetch m p;
      k ← fetch m kp;
      match g with
      | GMap None => Ret VZero
      | GMap (Some l) =>
          match mapaccess l k with
          | Some x => Ret (V et (Held x))
          | None => Ret VZero
          end
      | _ => Panics (BadMemory)
      end
  | V (TMap _ _) _, VZero => Panics (ValueError "reflect.Value.MapIndex" Invalid)
  | _, _ => Panics (ValueError "reflect.Value.MapIndex" (Value_Kind v))
  end.

(** [Type.Key()] of a map type. *)
Definition Type_Key (t : type) : type :=
  match t with TMap k _ => k | _ => t end.

(** [Value.IsNil()]: panics unless the kind is Chan, Func, Map, Ptr,
    UnsafePointer, Interface or Slice; in particular on the zero Value. *)
Definition Value_IsNil (m : Mem) (v : Value) : outcome bool :=
  match v with
  | V t p =>
      match Type_Kind t with
      | Chan | Func | Map | Ptr | UnsafePointer | Interface | Slice =>
          g ← fetch m p;
          match g with
          | GPtr a => Ret (bool_decide (a = 0))
          | GSlice o => Ret (bool_decide (o = None))
          | GMap o => Ret (bool_decide (o = None))
          | GIface o => Ret (bool_decide (o = None))
          | GOpaque b => Ret b
          | _ => Panics (BadMemory)
          end
      | k => Panics (ValueError "reflect.Value.IsNil" k)
      end
  | VZero => Panics (ValueError "reflect.Value.IsNil" Invalid)
  end.

(** Values reached from an [interface{}] by [Elem], [Index] and [MapIndex]
    never carry the read-only flag. *)
Definition Value_CanInterface (v : Value) : bool := Value_IsValid v.

(** *** Numbers *)

(** [float64(z)] for an integer [z]: rounding to nearest even. *)
Definition float64_of_Z (z : Z) : spec_float := binary_normalize 53 1024 z 0 false.

(** [int(x)] for a [float64]: truncation toward zero.  When the result does
    not fit an [int] Go leaves it to the implementation; amd64 gives the
    smallest [int]. *)
Definition int_of_float64 (x : spec_float) : Z :=
  match x with
  | S754_zero _ => 0
  | S754_finite s mant e =>
      let a := match e with
               | Zneg k => Z.pos mant / 2 ^ Z.pos k
               | _ => Z.pos mant * 2 ^ e
               end in
      let z := if s then - a else a in
      if decide (- 2 ^ 63 <= z < 2 ^ 63) then z else - 2 ^ 63
  | _ => - 2 ^ 63
  end.

End reflect.

Abbreviation Mem := (gmap Z reflect.gval).

(** ** Struct declarations *)

(** A [reflect.StructTag] is by convention a sequence of [key:"value"]
    pairs; it is kept in parsed form and [Get] returns the value of the
    first pair with the key, or the empty string. *)
Definition StructTag := list (string * string).

Fixpoint StructTag_Get (tag : StructTag) (key : string) : string :=
  match tag with
  | [] => ""
  | (k, v) :: tag' => if decide (k = key) then v else StructTag_Get tag' key
  end.

(** The part of [reflect.StructField] the program reads. *)
Record StructField := {
  Name : string;
  Typ : reflect.type;
  Tag : StructTag;
  Offset : uintptr;
}.

(** The struct declarations of the Go program: [Type.NumField()] and
    [Type.Field(i)] of the struct type printed as [name] enumerate
    [env !! name]; a name without declaration has no fields. *)
Abbreviation TypeEnv := (gmap string (list StructField)).

Definition Type_Fields (env : TypeEnv) (t : reflect.type) : list StructField :=
  match t with
  | reflect.TStruct name => default [] (env !! name)
  | _ => []
  end.

(** [Type.String()], used on struct types only. *)
Definition Type_String (t : reflect.type) : string :=
  match t with
  | reflect.TStruct name => name
  | _ => ""
  end.

(** ** Errors *)

(** The errors built with [errors.New] and [fmt.Errorf], by message format,
    and the errors of the expression compiler, which are passed on as they
    are. *)
Inductive error :=
  | ErrWarmUpNil                              (* "cannot warn up nil interface" *)
  | ErrRunNil                                 (* "cannot run nil interface" *)
  | ErrNotStructPtr (t : reflect.type)        (* "not structure pointer: %s" *)
  | ErrNotStruct (t : reflect.type)           (* "not structure pointer or structure: %s" *)
  | ErrDuplicateExprName (selector : string)  (* "duplicate expression name: %s" *)
  | ErrSyntax (raw : string)                  (* "syntax incorrect: %q" *)
  | ErrCompile (msg : string).

Inductive result (A : Type) :=
  | Done (a : A)
  | Fail (e : error).
Arguments Done {A} a.
Arguments Fail {A} e.

(** The expression collaborator: [parseExpr] compiles an expression source
    to an [Expr] or reports an error. *)
Class ExprCompiler (Expr : Type) := parseExpr : string → result Expr.

(** ** Text helpers *)

(** [strings.TrimSpace] on ASCII text: leading and trailing white space
    ('\t', '\n', '\v', '\f', '\r', ' ') is removed. *)
Fixpoint TrimLeft (s : string) : string :=
  match s with
  | String c s' => if Ascii.is_space c then TrimLeft s' else s
  | EmptyString => ""
  end.

Definition TrimSpace (s : string) : string :=
  String.rev (TrimLeft (String.rev (TrimLeft s))).

(** Modelled from the spec: [trimLeftSpace] is a helper of the repository
    defined outside [tagexpr.go]; it drops the white space in front of the
    text that remains after a group. *)
Definition trimLeftSpace (tag : string) : string := TrimLeft tag.

(** Modelled from the spec: [readPairedSymbol] is a helper of the repository
    defined outside [tagexpr.go].  It extracts one balanced [{...}] group
    from the front of the text: the result is the text between the opening
    brace and the closing brace that balances it, with the text that is left
    after that brace; there is no result when the text does not start with
    an opening brace or the brace is never closed. *)
Fixpoint scanPaired (left right : ascii) (depth : nat) (acc s : string)
  : option (string * string) :=
  match s with
  | EmptyString => None
  | String c s' =>
      if decide (c = right) then
        match depth with
        | O => Some (String.rev acc, s')
        | S d => scanPaired left right d (String c acc) s'
        end
      else if decide (c = left) then scanPaired left right (S depth) (String c acc) s'
      else scanPaired left right depth (String c acc) s'
  end.

Definition readPairedSymbol (tag : string) (left right : ascii)
  : option (string * string) :=
  match tag with
  | String c s' => if decide (c = left) then scanPaired left right 0 "" s' else None
  | EmptyString => None
  end.

(** [strings.Index(s, sep)]: [None] stands for [-1]. *)
Definition strings_Index (s sep : string) : option nat := String.index 0 sep s.

(** [s[:i]] and [s[i:]] *)
Definition prefix_to (i : nat) (s : string) : string := String.substring 0 i s.
Definition suffix_from (i : nat) (s : string) : string :=
  String.substring i (String.length s - i) s.

(** [getFieldSelector]: the text before the first '@'. *)
Definition getFieldSelector (selector : string) : string :=
  match strings_Index selector "@" with
  | None => selector
  | Some idx => prefix_to idx selector
  end.

(** ** Field getters *)

(** A [valueGetter] closure, [func(uintptr) interface{}]; it reads the
    memory of the process. *)
Definition Getter := Mem → uintptr → reflect.outcome reflect.iface.

Definition float64Type : reflect.type := reflect.TBasic reflect.BFloat64.

(** [getFloat64(kind, ptr)]: reads the number of kind [kind] at [ptr] and
    widens it to [float64]; nil for the other kinds. *)
Definition getFloat64 (m : Mem) (kind : reflect.Kind) (ptr : uintptr)
  : reflect.outcome reflect.iface :=
  if reflect.isFloat kind then
    g ← reflect.load m ptr;
    match g with
    | reflect.GFloat x => reflect.Ret (Some (float64Type, reflect.GFloat x))
    | _ => reflect.Panics reflect.BadMemory
    end
  else if reflect.isInteger kind then
    g ← reflect.load m ptr;
    match g with
    | reflect.GInt z =>
        reflect.Ret (Some (float64Type, reflect.GFloat (reflect.float64_of_Z z)))
    | _ => reflect.Panics reflect.BadMemory
    end
  else reflect.Ret None.

(** [ptrDeep] applications of [Value.Elem()]. *)
Fixpoint ElemTimes (m : Mem) (n : nat) (v : reflect.Value) : reflect.outcome reflect.Value :=
  match n with
  | O => reflect.Ret v
  | S n' => v' ← reflect.Value_Elem m v; ElemTimes m n' v'
  end.

(** [f.newFrom(ptr, ptrDeep)] *)
Definition newFrom (m : Mem) (f : StructField) (ptr : uintptr) (ptrDeep : nat)
  : reflect.outcome reflect.Value :=
  v ← reflect.Value_Elem m (reflect.NewAt (Typ f) (uintptr_add ptr (Offset f)));
  ElemTimes m ptrDeep v.

(** The closure that [setFloatGetter] installs. *)
Definition floatGetter (f : StructField) (kind : reflect.Kind) (ptrDeep : nat) : Getter :=
  match ptrDeep with
  | O => fun m ptr => getFloat64 m kind (uintptr_add ptr (Offset f))
  | _ => fun m ptr =>
      v ← newFrom m f ptr ptrDeep;
      if reflect.Value_CanAddr v then
        a ← reflect.Value_UnsafeAddr v; getFloat64 m kind a
      else reflect.Ret None
  end.

(** The closure that [setBoolGetter] installs. *)
Definition boolGetter (f : StructField) (ptrDeep : nat) : Getter :=
  match ptrDeep with
  | O => fun m ptr =>
      g ← reflect.load m (uintptr_add ptr (Offset f));
      match g with
      | reflect.GBool b => reflect.Ret (Some (reflect.TBasic reflect.BBool, reflect.GBool b))
      | _ => reflect.Panics reflect.BadMemory
      end
  | _ => fun m ptr =>
      v ← newFrom m f ptr ptrDeep;
      if reflect.Value_IsValid v then
        b ← reflect.Value_Bool m v;
        reflect.Ret (Some (reflect.TBasic reflect.BBool, reflect.GBool b))
      else reflect.Ret None
  end.

(** The closure that [setStringGetter] installs. *)
Definition stringGetter (f : StructField) (ptrDeep : nat) : Getter :=
  match ptrDeep with
  | O => fun m ptr =>
      g ← reflect.load m (uintptr_add ptr (Offset f));
      match g with
      | reflect.GString s =>
          reflect.Ret (Some (reflect.TBasic reflect.BString, reflect.GString s))
      | _ => reflect.Panics reflect.BadMemory
      end
  | _ => fun m ptr =>
      v ← newFrom m f ptr ptrDeep;
      if reflect.Value_IsValid v then
        s ← reflect.Value_String m v;
        reflect.Ret (Some (reflect.TBasic reflect.BString, reflect.GString s))
      else reflect.Ret None
  end.

(** The closure that [setLengthGetter] installs: the container itself. *)
Definition lengthGetter (f : StructField) (ptrDeep : nat) : Getter :=
  fun m ptr => v ← newFrom m f ptr ptrDeep; reflect.Value_Interface m v.

(** The closure of the [default] case: always nil. *)
Definition nilGetter : Getter := fun _ _ => reflect.Ret None.

(** The closures that [copySubFields] installs for a field of the nested
    struct whose own getter is [valueGetter]; [field] is the field of the
    host that holds the nested struct. *)
Definition subGetter (field : StructField) (ptrDeep : nat) (valueGetter : Getter) : Getter :=
  match ptrDeep with
  | O => fun m ptr => valueGetter m (uintptr_add ptr (Offset field))
  | _ => fun m ptr =>
      newField ← ElemTimes m ptrDeep
                   (reflect.NewAt (Typ field) (uintptr_add ptr (Offset field)));
      a ← reflect.Value_Pointer m newField;
      valueGetter m a
  end.

(** ** The registry *)

(** A [*Struct]: descriptors are heap objects and the registry, the fields'
    [host] and the evaluators share them by pointer. *)
Definition loc := nat.

(** [Field]: the embedded [reflect.StructField], the descriptor that
    declares the field, and the getter ([None] is Go's nil func). *)
Record Field := {
  sf :> StructField;
  host : loc;
  valueGetter : option Getter;
}.

Section Registry.
Context {Expr : Type} {compiler : ExprCompiler Expr}.

(** [Struct].  The back pointer [vm] is left out: there is one [VM], passed
    along explicitly. *)
Record Struct := {
  name : string;
  fields : gmap string Field;
  exprs : gmap string Expr;
  selectorList : list string;
}.

(** [VM]: [structJar] maps a type name to a pointer into [heap]; the lock
    [rw] has no sequential content. *)
Record VM := {
  tagName : string;
  structJar : gmap string loc;
  heap : list Struct;
}.

(** [New(tagName)] *)
Definition New (tagName : string) : VM :=
  {| tagName := tagName; structJar := ∅; heap := [] |}.

(** The descriptor a pointer refers to. *)
Definition emptyStruct : Struct :=
  {| name := ""; fields := ∅; exprs := ∅; selectorList := [] |}.

Definition deref (vm : VM) (p : loc) : Struct := default emptyStruct (heap vm !! p).

Definition store (p : loc) (s : Struct) (vm : VM) : VM :=
  {| tagName := tagName vm; structJar := structJar vm; heap := <[p := s]> (heap vm) |}.

(** [vm.newStruct()]: a fresh descriptor on the heap. *)
Definition newStruct (vm : VM) : VM * loc :=
  ({| tagName := tagName vm; structJar := structJar vm;
      heap := heap vm ++ [emptyStruct] |}, length (heap vm)).

(** [vm.structJar[structTypeName] = s] *)
Definition setJar (structTypeName : string) (s : loc) (vm : VM) : VM :=
  {| tagName := tagName vm; structJar := <[structTypeName := s]> (structJar vm);
     heap := heap vm |}.

(** [s.exprs[selector] = expr] and
    [s.selectorList = append(s.selectorList, selector)] *)
Definition addExpr (selector : string) (expr : Expr) (s : Struct) : Struct :=
  {| name := name s; fields := fields s;
     exprs := <[selector := expr]> (exprs s);
     selectorList := selectorList s ++ [selector] |}.

(** [s.fields[key] = f] *)
Definition setField (key : string) (f : Field) (s : Struct) : Struct :=
  {| name := name s; fields := <[key := f]> (fields s);
     exprs := exprs s; selectorList := selectorList s |}.

(** *** The annotation parser *)

(** The [for] loop of [parseExprs] on the host descriptor [s].  [tag] is the
    text that is left, [raw] the tag as it was given.  Every turn that does
    not return consumes a group of [tag]; [fuel] bounds the turns. *)
Fixpoint parseExprsLoop (fuel : nat) (fname raw tag : string) (s : Struct)
  : option (Struct * option error) :=
  match fuel with
  | O => None
  | S fuel' =>
      match readPairedSymbol tag "{"%char "}"%char with
      | Some (subtag, tag) =>
          match strings_Index subtag ":" with
          | Some (S i) =>
              let idx := S i in
              let selector := TrimSpace (prefix_to idx subtag) in
              if decide (selector = "") then parseExprsLoop fuel' fname raw tag s
              else
                let selector :=
                  if decide (selector = "@") then fname +:+ selector
                  else fname +:+ "@" +:+ selector in
                match exprs s !! selector with
                | Some _ => Some (s, Some (ErrDuplicateExprName selector))
                | None =>
                    let exprStr := TrimSpace (suffix_from (idx + 1) subtag) in
                    if decide (exprStr = "") then Some (s, Some (ErrSyntax raw))
                    else
                      match parseExpr exprStr with
                      | Done expr =>
                          let s := addExpr selector expr s in
                          let tag := trimLeftSpace tag in
                          if decide (tag = "") then Some (s, None)
                          else parseExprsLoop fuel' fname raw tag s
                      | Fail err => Some (s, Some err)
                      end
                end
          | _ => Some (s, Some (ErrSyntax raw))
          end
      | None => Some (s, Some (ErrSyntax raw))
      end
  end.

(** [f.parseExprs(tag)] for the field named [fname] of the host [s]: the
    host as the call leaves it and the error, if any.  A group has at least
    the two braces, so the length of the tag bounds the turns of the loop
    ([parseExprsLoop_fuel]). *)
Definition parseExprs (fname tag : string) (s : Struct) : Struct * option error :=
  let raw := tag in
  let tag := TrimSpace tag in
  if decide (tag = "") then (s, None)
  else
    match tag with
    | String "{"%char _ =>
        match parseExprsLoop (S (String.length tag)) fname raw tag s with
        | Some r => r
        | None => (s, Some (ErrSyntax raw))
        end
    | _ =>
        match parseExpr tag with
        | Fail err => (s, Some err)
        | Done expr => (addExpr (fname +:+ "@") expr s, None)
        end
    end.

(** [s.newField(structField)], [s] being the descriptor at [p]. *)
Definition newField (p : loc) (structField : StructField) (vm : VM) : VM * result Field :=
  let f := {| sf := structField; host := p; valueGetter := None |} in
  match parseExprs (Name f) (StructTag_Get (Tag structField) (tagName vm)) (deref vm p) with
  | (s, Some err) => (store p s vm, Fail err)
  | (s, None) => (store p (setField (Name f) f s) vm, Done f)
  end.

(** [field.valueGetter = g]: [field] is the pointer that [newField] has
    just put under [field.Name] in the fields of the descriptor at [p], so
    the assignment shows in that entry. *)
Definition setGetter (p : loc) (field : Field) (g : Getter) (vm : VM) : VM :=
  let field' := {| sf := sf field; host := host field; valueGetter := Some g |} in
  store p (setField (Name field) field' (deref vm p)) vm.

(** *** Flattening a nested struct *)

(** The body of [for k, v := range sub.fields]. *)
Definition copyField (field : Field) (ptrDeep : nat) (s : Struct) (kv : string * Field) : Struct :=
  let '(k, v) := kv in
  let f := {| sf := sf v; host := host v;
              valueGetter := subGetter field ptrDeep <$> valueGetter v |} in
  setField (Name field +:+ "." +:+ k) f s.

(** The body of [for k, v := range sub.exprs]. *)
Definition copyExpr (field : Field) (s : Struct) (kv : string * Expr) : Struct :=
  let '(k, v) := kv in
  addExpr (Name field +:+ "." +:+ k) v s.

(** [s.copySubFields(field, sub, ptrDeep)] with [s] at [p] and [sub] at
    [q].  Go leaves the order of a [range] over a map open, and lets an
    entry that is created during the range be produced or skipped: the
    model ranges over the entries that [sub] has when the loop starts, in
    the order of [map_to_list].  [p] and [q] may be the same pointer. *)
Definition copySubFields (p : loc) (field : Field) (q : loc) (ptrDeep : nat) (vm : VM) : VM :=
  let vm1 :=
    store p (foldl (copyField field ptrDeep) (deref vm p)
               (map_to_list (fields (deref vm q)))) vm in
  store p (foldl (copyExpr field) (deref vm1 p)
             (map_to_list (exprs (deref vm1 q)))) vm1.

(** *** Registration *)

(** The loop [for t.Kind() == reflect.Ptr { t = t.Elem(); ptrDeep++ }]. *)
Fixpoint stripPtr (t : reflect.type) : reflect.type * nat :=
  match t with
  | reflect.TPtr e => let '(t', n) := stripPtr e in (t', S n)
  | _ => (t, O)
  end.

(** [vm.getStructType(t)] *)
Definition getStructType (t : reflect.type) : result reflect.type :=
  let structType := fst (stripPtr t) in
  if decide (reflect.Type_Kind structType = reflect.Struct) then Done structType
  else Fail (ErrNotStruct t).

(** The [switch t.Kind()] of [registerStructLocked] for the kinds that need
    no nested registration. *)
Definition installGetter (p : loc) (field : Field) (t : reflect.type) (ptrDeep : nat) (vm : VM) : VM :=
  let k := reflect.Type_Kind t in
  if reflect.isNumeric k then setGetter p field (floatGetter field k ptrDeep) vm
  else
    match k with
    | reflect.String => setGetter p field (stringGetter field ptrDeep) vm
    | reflect.Bool => setGetter p field (boolGetter field ptrDeep) vm
    | reflect.Map | reflect.Array | reflect.Slice =>
        setGetter p field (lengthGetter field ptrDeep) vm
    | _ => setGetter p field nilGetter vm
    end.

(** The [for i := 0; i < numField; i++] loop of [registerStructLocked] over
    the fields that are left; [register] is the recursive call. *)
Fixpoint registerFields (register : reflect.type → VM → option (VM * result loc))
    (p : loc) (structFields : list StructField) (vm : VM)
  : option (VM * result loc) :=
  match structFields with
  | [] => Some (vm, Done p)
  | structField :: rest =>
      match newField p structField vm with
      | (vm, Fail err) => Some (vm, Fail err)
      | (vm, Done field) =>
          let '(t, ptrDeep) := stripPtr (Typ structField) in
          if decide (reflect.Type_Kind t = reflect.Struct) then
            match register (Typ field) vm with
            | None => None
            | Some (vm, Fail err) => Some (vm, Fail err)
            | Some (vm, Done sub) =>
                registerFields register p rest (copySubFields p field sub ptrDeep vm)
            end
          else registerFields register p rest (installGetter p field t ptrDeep vm)
      end
  end.

(** [vm.registerStructLocked(structType)]: the registry as the call leaves
    it, with the descriptor or the error.  [fuel] bounds the depth of the
    recursion; [None] is a call that needs more. *)
Fixpoint registerStructLocked (fuel : nat) (env : TypeEnv) (structType : reflect.type)
    (vm : VM) : option (VM * result loc) :=
  match fuel with
  | O => None
  | S fuel' =>
      match getStructType structType with
      | Fail err => Some (vm, Fail err)
      | Done structType =>
          let structTypeName := Type_String structType in
          match structJar vm !! structTypeName with
          | Some s => Some (vm, Done s)
          | None =>
              let '(vm, s) := newStruct vm in
              let vm := setJar structTypeName s vm in
              registerFields (registerStructLocked fuel' env) s
                (Type_Fields env structType) vm
          end
      end
  end.

(** [vm.WarmUp(structOrStructPtr...)] *)
Fixpoint WarmUp (fuel : nat) (env : TypeEnv) (structOrStructPtr : list reflect.iface)
    (vm : VM) : option (VM * option error) :=
  match structOrStructPtr with
  | [] => Some (vm, None)
  | v :: rest =>
      match reflect.TypeOf v with
      | None => Some (vm, Some ErrWarmUpNil)
      | Some t =>
          match registerStructLocked fuel env t vm with
          | None => None
          | Some (vm, Fail err) => Some (vm, Some err)
          | Some (vm, Done _) => WarmUp fuel env rest vm
          end
      end
  end.

(** ** Evaluation *)

(** [TagExpr] *)
Record TagExpr := {
  s : loc;
  ptr : uintptr;
}.

(** [s.newTagExpr(ptr)] *)
Definition newTagExpr (s : loc) (ptr : uintptr) : TagExpr := {| s := s; ptr := ptr |}.

(** [vm.Run(structPtr)].  The Value made from the interface holds its
    data, so [v.Elem()] and [v.Pointer()] read no memory.  The registry is
    looked up twice, without and with the write lock. *)
Definition Run (fuel : nat) (env : TypeEnv) (structPtr : reflect.iface) (vm : VM)
  : option (VM * reflect.outcome (result TagExpr)) :=
  match structPtr with
  | None => Some (vm, reflect.Ret (Fail ErrRunNil))
  | Some (vt, _) =>
      let v := reflect.ValueOf structPtr in
      if decide (reflect.Value_Kind v ≠ reflect.Ptr)
      then Some (vm, reflect.Ret (Fail (ErrNotStructPtr vt)))
      else
        match reflect.Value_Elem ∅ v with
        | reflect.Panics e => Some (vm, reflect.Panics e)
        | reflect.Ret elem =>
            if decide (reflect.Value_Kind elem ≠ reflect.Struct)
            then Some (vm, reflect.Ret (Fail (ErrNotStructPtr vt)))
            else
              let t := reflect.elemType vt in
              let tname := Type_String t in
              let finish (vm : VM) (s : loc) :=
                Some (vm, a ← reflect.Value_Pointer ∅ v;
                          reflect.Ret (Done (newTagExpr s a))) in
              match structJar vm !! tname with
              | Some s => finish vm s
              | None =>
                  match structJar vm !! tname with
                  | Some s => finish vm s
                  | None =>
                      match registerStructLocked fuel env t vm with
                      | None => None
                      | Some (vm, Fail err) => Some (vm, reflect.Ret (Fail err))
                      | Some (vm, Done s) => finish vm s
                      end
                  end
              end
        end
  end.

End Registry.

Section Evaluation.
Context {Expr : Type}.

(** [Value.Convert(t)] is standard-library code with a long table of cases;
    it is a parameter of the resolver.  [Panics] is a conversion that
    panics. *)
Variable Value_Convert : Mem → reflect.Value → reflect.type → reflect.outcome reflect.Value.

(** [safeConvert(v, t)]: the deferred [recover()] turns a panic of
    [Convert] into the zero Value. *)
Definition safeConvert (m : Mem) (v : reflect.Value) (t : reflect.type) : reflect.Value :=
  match Value_Convert m v t with
  | reflect.Ret v' => v'
  | reflect.Panics _ => reflect.VZero
  end.

(** [Value.Float()] of a [float64]. *)
Definition Value_Float (m : Mem) (v : reflect.Value) : reflect.outcome spec_float :=
  match v with
  | reflect.V t p =>
      if reflect.isFloat (reflect.Type_Kind t) then
        g ← reflect.fetch m p;
        match g with
        | reflect.GFloat x => reflect.Ret x
        | _ => reflect.Panics reflect.BadMemory
        end
      else reflect.Panics (reflect.ValueError "reflect.Value.Float" (reflect.Type_Kind t))
  | reflect.VZero => reflect.Panics (reflect.ValueError "reflect.Value.Float" reflect.Invalid)
  end.

(** The loop [for vv.Kind() == reflect.Ptr { vv = vv.Elem() }] on a Value of
    type [t]: [Elem] of a pointer to [e] is of type [e], which is where the
    loop goes on. *)
Fixpoint elemLoop (m : Mem) (t : reflect.type) (p : reflect.place)
  : reflect.outcome reflect.Value :=
  match t with
  | reflect.TPtr e =>
      vv ← reflect.Value_Elem m (reflect.V t p);
      match vv with
      | reflect.V _ p' => elemLoop m e p'
      | reflect.VZero => reflect.Ret reflect.VZero
      end
  | _ => reflect.Ret (reflect.V t p)
  end.

Definition throughPointers (m : Mem) (vv : reflect.Value) : reflect.outcome reflect.Value :=
  match vv with
  | reflect.V t p => elemLoop m t p
  | reflect.VZero => reflect.Ret reflect.VZero
  end.

Definition Value_Type (v : reflect.Value) : reflect.type :=
  match v with
  | reflect.V t _ => t
  | reflect.VZero => reflect.TInterface ""
  end.

(** One turn of [for _, k := range subFields] in [getValue]: the next [vv],
    or [None] when the turn returns nil. *)
Definition subscript (m : Mem) (vv : reflect.Value) (k : reflect.iface)
  : reflect.outcome (option reflect.Value) :=
  vv ← throughPointers m vv;
  match reflect.Value_Kind vv with
  | reflect.Slice | reflect.Array | reflect.String =>
      match k with
      | Some (reflect.TBasic reflect.BFloat64, reflect.GFloat float) =>
          let idx := reflect.int_of_float64 float in
          len ← reflect.Value_Len m vv;
          if decide (idx >= Z.of_nat len) then reflect.Ret None
          else vv ← reflect.Value_Index m vv idx; reflect.Ret (Some vv)
      | _ => reflect.Ret None
      end
  | reflect.Map =>
      let k := safeConvert m (reflect.ValueOf k) (reflect.Type_Key (Value_Type vv)) in
      if negb (reflect.Value_IsValid k) then reflect.Ret None
      else vv ← reflect.Value_MapIndex m vv k; reflect.Ret (Some vv)
  | _ => reflect.Ret None
  end.

Fixpoint subscripts (m : Mem) (vv : reflect.Value) (subFields : list reflect.iface)
  : reflect.outcome (option reflect.Value) :=
  match subFields with
  | [] => reflect.Ret (Some vv)
  | k :: rest =>
      r ← subscript m vv k;
      match r with
      | Some vv => subscripts m vv rest
      | None => reflect.Ret None
      end
  end.

(** The end of [getValue]: the pointers that are left are followed, then
    [switch vv.Kind()]. *)
Definition terminal (m : Mem) (vv : reflect.Value) : reflect.outcome reflect.iface :=
  vv ← throughPointers m vv;
  let k := reflect.Value_Kind vv in
  if reflect.isNumeric k then
    if reflect.Value_CanAddr vv then
      a ← reflect.Value_UnsafeAddr vv; getFloat64 m k a
    else
      c ← Value_Convert m vv float64Type;
      x ← Value_Float m c;
      reflect.Ret (Some (float64Type, reflect.GFloat x))
  else
    match k with
    | reflect.String =>
        s ← reflect.Value_String m vv;
        reflect.Ret (Some (reflect.TBasic reflect.BString, reflect.GString s))
    | reflect.Bool =>
        b ← reflect.Value_Bool m vv;
        reflect.Ret (Some (reflect.TBasic reflect.BBool, reflect.GBool b))
    | _ =>
        isnil ← reflect.Value_IsNil m vv;
        if negb isnil && reflect.Value_CanInterface vv
        then reflect.Value_Interface m vv
        else reflect.Ret None
    end.

(** [t.getValue(field, subFields)] on the descriptor [d] that [t.s] points
    to. *)
Definition getValue (d : @Struct Expr) (m : Mem) (t : TagExpr) (field : string)
    (subFields : list reflect.iface) : reflect.outcome reflect.iface :=
  match fields d !! field with
  | None => reflect.Ret None
  | Some f =>
      match valueGetter f with
      | None => reflect.Ret None
      | Some getter =>
          v ← getter m (ptr t);
          match v with
          | None => reflect.Ret None
          | Some _ =>
              match subFields with
              | [] => reflect.Ret v
              | _ =>
                  r ← subscripts m (reflect.ValueOf v) subFields;
                  match r with
                  | Some vv => terminal m vv
                  | None => reflect.Ret None
                  end
              end
          end
      end
  end.

(** *** Expressions

    [expr.run(field, t)] belongs to the expression collaborator.  Running an
    expression and the caller's callback may do anything observable; [W] is
    the state they act on. *)
Context {W : Type}.
Variable run : Expr → string → TagExpr → W → W * reflect.outcome reflect.iface.

(** [t.Eval(selector)] *)
Definition Eval (d : @Struct Expr) (t : TagExpr) (selector : string) (w : W)
  : W * reflect.outcome reflect.iface :=
  match exprs d !! selector with
  | None => (w, reflect.Ret None)
  | Some expr => run expr (getFieldSelector selector) t w
  end.

(** The closure [eval] that [Range] hands to the callback; calling [run] on
    a missing entry is a nil receiver. *)
Definition evalThunk (exprs : gmap string Expr) (t : TagExpr) (selector : string) (w : W)
  : W * reflect.outcome reflect.iface :=
  match exprs !! selector with
  | Some expr => run expr (getFieldSelector selector) t w
  | None => (w, reflect.Panics reflect.NilMethodReceiver)
  end.

(** The loop of [Range] over the selectors that are left. *)
Fixpoint RangeLoop (exprs : gmap string Expr) (t : TagExpr)
    (fn : string → (W → W * reflect.outcome reflect.iface) → W → W * bool)
    (selectors : list string) (w : W) : W :=
  match selectors with
  | [] => w
  | selector :: rest =>
      let '(w, continue) := fn selector (evalThunk exprs t selector) w in
      if continue then RangeLoop exprs t fn rest w else w
  end.

(** [t.Range(fn)] *)
Definition Range (d : @Struct Expr) (t : TagExpr)
    (fn : string → (W → W * reflect.outcome reflect.iface) → W → W * bool) (w : W) : W :=
  let exprs := exprs d in
  RangeLoop exprs t fn (selectorList d) w.

End Evaluation.

#[global] Instance outcome_fmap : FMap reflect.outcome := fun A B f x =>
  match x with
  | reflect.Ret a => reflect.Ret (f a)
  | reflect.Panics p => reflect.Panics p
  end.

Section Narrowing.
Context {Expr W : Type}.
Variable run : Expr → string → TagExpr → W → W * reflect.outcome reflect.iface.







End Narrowing.

(** * Vocabulary of the statements *)

(** [occurs c s]: the character [c] occurs in [s]. *)
Fixpoint occurs (c : ascii) (s : string) : bool :=
  match s with
  | EmptyString => false
  | String c' s' => bool_decide (c' = c) || occurs c s'
  end.

(** A Go identifier has no dot and no at sign; field names are
    identifiers. *)
Definition identifier (name : string) : Prop :=
  occurs "." name = false ∧ occurs "@" name = false.



(** The selector that [parseExprs] makes of the name of a group, for the
    field [fname]. *)
Definition selectorOf (fname name : string) : string :=
  if decide (TrimSpace name = "@") then fname +:+ "@"
  else fname +:+ "@" +:+ TrimSpace name.


Section Vocabulary.
Context {Expr : Type}.
Implicit Types (vm : @VM Expr) (p q : loc).

(** [extends vm vm']: every entry of the registry is kept, and every
    descriptor that exists in [vm] is the same in [vm']. *)
Definition extends vm vm' : Prop :=
  structJar vm ⊆ structJar vm' ∧ tagName vm' = tagName vm ∧
  (length (heap vm) ≤ length (heap vm'))%nat ∧
  ∀ q, (q < length (heap vm))%nat → heap vm' !! q = heap vm !! q.

(** [extends_but p vm vm']: the same, the descriptor at [p] apart. *)
Definition extends_but p vm vm' : Prop :=
  structJar vm ⊆ structJar vm' ∧ tagName vm' = tagName vm ∧
  (length (heap vm) ≤ length (heap vm'))%nat ∧
  ∀ q, q ≠ p → (q < length (heap vm))%nat → heap vm' !! q = heap vm !! q.

(** [jar_ok vm]: the entries of the registry point to descriptors that
    exist, and two type names never share a descriptor. *)
Definition jar_ok vm : Prop :=
  (∀ k q, structJar vm !! k = Some q → (q < length (heap vm))%nat) ∧
  (∀ k1 k2 q, structJar vm !! k1 = Some q → structJar vm !! k2 = Some q → k1 = k2).

Context {W : Type}.
Variable run : Expr → string → TagExpr → W → W * reflect.outcome reflect.iface.

(** One call of the callback of [Range], as [Range] makes it, and the state
    after the callback has been called on each selector of a list, in the
    order of the list. *)
Definition callOn (exprs : gmap string Expr) (t : TagExpr)
    (fn : string → (W → W * reflect.outcome reflect.iface) → W → W * bool)
    (w : W) (selector : string) : W * bool :=
  fn selector (evalThunk run exprs t selector) w.

Definition afterCalls (exprs : gmap string Expr) (t : TagExpr)
    (fn : string → (W → W * reflect.outcome reflect.iface) → W → W * bool)
    (selectors : list string) (w : W) : W :=
  foldl (λ w selector, (callOn exprs t fn w selector).1) w selectors.

End Vocabulary.

(** * Sample programs

    Struct declarations, memories and a toy expression compiler on which
    the model is run. *)

(** The toy compiler: a compiled expression is its source text, and the
    source [?] does not compile. *)
#[global] Instance toyCompiler : ExprCompiler string := fun src =>
  if decide (src = "?") then Fail (ErrCompile "unexpected ?") else Done src.

(** A second compiler that accepts nothing. *)
Definition rejectAll : ExprCompiler string := fun src => Fail (ErrCompile src).

Definition tInt : reflect.type := reflect.TBasic reflect.BInt.
Definition tString : reflect.type := reflect.TBasic reflect.BString.
Definition tFloat64 : reflect.type := reflect.TBasic reflect.BFloat64.

(** The cases of [Convert] that the samples meet: a conversion to the type
    the value has returns the value, an integer converts to [float64]. *)
Definition basicConvert (m : Mem) (v : reflect.Value) (t : reflect.type)
  : reflect.outcome reflect.Value :=
  match v with
  | reflect.V t' p =>
      if decide (t' = t) then reflect.Ret v
      else if decide (t = tFloat64 ∧ reflect.isInteger (reflect.Type_Kind t') = true) then
        g ← reflect.fetch m p;
        match g with
        | reflect.GInt z =>
            reflect.Ret (reflect.V t (reflect.Held (reflect.GFloat (reflect.float64_of_Z z))))
        | _ => reflect.Panics reflect.BadMemory
        end
      else reflect.Panics reflect.ConversionPanic
  | reflect.VZero =>
      reflect.Panics (reflect.ValueError "reflect.Value.Convert" reflect.Invalid)
  end.

(** [type T struct { A int `te:"$>0"`; Next *T }] *)
Definition selfEnv : TypeEnv :=
  {[ "main.T" :=
       [ {| Name := "A"; Typ := tInt; Tag := [("te", "$>0")]; Offset := 0 |};
         {| Name := "Next"; Typ := reflect.TPtr (reflect.TStruct "main.T");
            Tag := []; Offset := 8 |} ] ]}.

(** Two types that contain each other:
    [type A struct { X int `te:"1"`; B *B }]
    [type B struct { Y int `te:"2"`; A *A }] *)
Definition mutualEnv : TypeEnv :=
  {[ "main.A" :=
       [ {| Name := "X"; Typ := tInt; Tag := [("te", "1")]; Offset := 0 |};
         {| Name := "B"; Typ := reflect.TPtr (reflect.TStruct "main.B");
            Tag := []; Offset := 8 |} ];
     "main.B" :=
       [ {| Name := "Y"; Typ := tInt; Tag := [("te", "2")]; Offset := 0 |};
         {| Name := "A"; Typ := reflect.TPtr (reflect.TStruct "main.A");
            Tag := []; Offset := 8 |} ] ]}.

(** [type Address struct { City string `te:"len($)>0"` }]
    [type User struct { Name string; Addr Address }]
    [type Host struct { Addr *Address }]
    [type Deep struct { N **int }]
    [type Items struct { Xs []int; M map[string]int; P *[]int }]
    [type ABC struct { A int `te:"1"`; B int `te:"2"`; C int `te:"3"` }]
    [type Twice struct { X int `te:"{@:$>0}{@:$<9}"` }]
    [type Bad struct { X int `te:"{"` }]
    [type Blank struct { _ int `te:"1"`; _ int `te:"2"` }] *)
Definition sampleEnv : TypeEnv :=
  {[ "main.Address" :=
       [ {| Name := "City"; Typ := tString; Tag := [("te", "len($)>0")]; Offset := 0 |} ];
     "main.User" :=
       [ {| Name := "Name"; Typ := tString; Tag := []; Offset := 0 |};
         {| Name := "Addr"; Typ := reflect.TStruct "main.Address"; Tag := []; Offset := 16 |} ];
     "main.Host" :=
       [ {| Name := "Addr"; Typ := reflect.TPtr (reflect.TStruct "main.Address");
            Tag := []; Offset := 0 |} ];
     "main.Deep" :=
       [ {| Name := "N"; Typ := reflect.TPtr (reflect.TPtr tInt); Tag := []; Offset := 0 |} ];
     "main.Items" :=
       [ {| Name := "Xs"; Typ := reflect.TSlice tInt; Tag := []; Offset := 0 |};
         {| Name := "M"; Typ := reflect.TMap tString tInt; Tag := []; Offset := 24 |};
         {| Name := "P"; Typ := reflect.TPtr (reflect.TSlice tInt); Tag := []; Offset := 32 |} ];
     "main.ABC" :=
       [ {| Name := "A"; Typ := tInt; Tag := [("te", "1")]; Offset := 0 |};
         {| Name := "B"; Typ := tInt; Tag := [("te", "2")]; Offset := 8 |};
         {| Name := "C"; Typ := tInt; Tag := [("te", "3")]; Offset := 16 |} ];
     "main.Twice" :=
       [ {| Name := "X"; Typ := tInt; Tag := [("te", "{@:$>0}{@:$<9}")]; Offset := 0 |} ];
     "main.Bad" :=
       [ {| Name := "X"; Typ := tInt; Tag := [("te", "{")]; Offset := 0 |} ];
     "main.Blank" :=
       [ {| Name := "_"; Typ := tInt; Tag := [("te", "1")]; Offset := 0 |};
         {| Name := "_"; Typ := tInt; Tag := [("te", "2")]; Offset := 8 |} ] ]}.

(** The registry after registering the struct type [name] in a new [VM]
    with tag name [te], and the descriptor that the registration returns. *)
Definition registered (env : TypeEnv) (name : string) : option (@VM string * result loc) :=
  registerStructLocked 4 env (reflect.TStruct name) (New "te").

Definition registryOf (env : TypeEnv) (name : string) : @VM string :=
  match registered env name with
  | Some (vm, _) => vm
  | None => New "te"
  end.

Definition descriptorOf (env : TypeEnv) (name : string) : @Struct string :=
  match registered env name with
  | Some (vm, Done s) => deref vm s
  | _ => emptyStruct
  end.

(** An instance at address 4096. *)
Definition at4096 : TagExpr := {| s := 0%nat; ptr := 4096 |}.

(** A [Host] whose [Addr] is nil, a [Deep] whose [N] is nil: the word at
    4096 is a nil pointer. *)
Definition nilAt4096 : Mem := {[ 4096 := reflect.GPtr 0 ]}.

(** An [Items] with [Xs = []int{1, 2, 3}], [M = map[string]int{"a": 1}] and
    [P = nil]. *)
Definition itemsMem : Mem :=
  {[ 4096 := reflect.GSlice (Some [reflect.GInt 1; reflect.GInt 2; reflect.GInt 3]);
     4120 := reflect.GMap (Some [(reflect.GString "a", reflect.GInt 1)]);
     4128 := reflect.GPtr 0 ]}.

(** The subscripts [-1.0], [5.0] and ["b"]. *)
Definition minusOne : reflect.iface := Some (tFloat64, reflect.GFloat (S754_finite true 1 0)).
Definition five : reflect.iface := Some (tFloat64, reflect.GFloat (S754_finite false 5 0)).
Definition keyB : reflect.iface := Some (tString, reflect.GString "b").

(** [n] pointer layers around a type. *)
Definition pointers (n : nat) (t : reflect.type) : reflect.type := Nat.iter n reflect.TPtr t.

(** Running a toy expression writes a line to a log; the callback
    [visitUntil stop] logs the selector, evaluates it, and returns false on
    the selector [stop]. *)
Definition toyRun (expr : string) (field : string) (t : TagExpr) (log : list string)
  : list string * reflect.outcome reflect.iface :=
  (log ++ ["run " +:+ expr], reflect.Ret None).

Definition visitUntil (stop : string) (selector : string)
    (eval : list string → list string * reflect.outcome reflect.iface)
    (log : list string) : list string * bool :=
  ((eval (log ++ [selector])).1, bool_decide (selector ≠ stop)).

(** * Vocabulary of the further properties *)

Section VocabularyExtra.
Context {Expr : Type}.
Implicit Types (vm : @VM Expr) (d : @Struct Expr).

(** Every selector of the list has an expression; in every descriptor of
    the heap. *)
Definition selectors_bound d : Prop :=
  ∀ selector, selector ∈ selectorList d → is_Some (exprs d !! selector).

Definition all_bound vm : Prop :=
  ∀ q d, heap vm !! q = Some d → selectors_bound d.

(** [tidy P d]: the selectors of the list are different, each has an
    expression, and each is a [P]. *)
Definition tidy (P : string → Prop) d : Prop :=
  NoDup (selectorList d) ∧ selectors_bound d ∧
  ∀ selector, selector ∈ selectorList d → P selector.

End VocabularyExtra.

(** [tagged n selector]: a selector that [parseExprs] makes for the field
    [n]; [nested n selector]: one that [copySubFields] puts under the field
    [n]; [owned names selector]: one or the other, for a field of [names]. *)
Definition tagged (n selector : string) : Prop :=
  ∃ rest, selector = n +:+ "@" +:+ rest.

Definition nested (n selector : string) : Prop :=
  ∃ rest, selector = n +:+ "." +:+ rest.

Definition owned (names : list string) (selector : string) : Prop :=
  ∃ n, n ∈ names ∧ (tagged n selector ∨ nested n selector).

(** [chain m a n b]: from the address [a], [n] pointers that are not nil
    lead to the address [b]. *)
Inductive chain (m : Mem) : uintptr → nat → uintptr → Prop :=
  | chain_here a : chain m a 0 a
  | chain_step a a' n b :
      m !! a = Some (reflect.GPtr a') → a' ≠ 0%Z → chain m a' n b → chain m a (S n) b.

(** A descriptor written by hand: the field [Xs []int] at offset 0 and the
    field [M map[string]int] at offset 24, with the getters that
    [setLengthGetter] makes. *)
Definition xsField : StructField :=
  {| Name := "Xs"; Typ := reflect.TSlice tInt; Tag := []; Offset := 0 |}.

Definition mField : StructField :=
  {| Name := "M"; Typ := reflect.TMap tString tInt; Tag := []; Offset := 24 |}.

Definition itemsDescriptor : @Struct string :=
  setField "M" {| sf := mField; host := 0%nat; valueGetter := Some (lengthGetter mField 0) |}
    (setField "Xs"
       {| sf := xsField; host := 0%nat; valueGetter := Some (lengthGetter xsField 0) |}
       emptyStruct).

(** The getter that the [switch] of [registerStructLocked] gives a field:
    none for a struct (behind any pointers), else by the kind under the
    pointers. *)
Definition getterOf (f : StructField) : option Getter :=
  let '(t, ptrDeep) := stripPtr (Typ f) in
  let k := reflect.Type_Kind t in
  if decide (k = reflect.Struct) then None
  else if reflect.isNumeric k then Some (floatGetter f k ptrDeep)
  else
    match k with
    | reflect.String => Some (stringGetter f ptrDeep)
    | reflect.Bool => Some (boolGetter f ptrDeep)
    | reflect.Map | reflect.Array | reflect.Slice => Some (lengthGetter f ptrDeep)
    | _ => Some nilGetter
    end.

(** * Properties *)

Local Close Scope Z_scope.

(** ** The registry only grows *)

Section RegistryFacts.
Context {Expr : Type} {compiler : ExprCompiler Expr}.
Implicit Types (vm : @VM Expr) (p q : loc) (d : @Struct Expr).

Lemma extends_refl vm : extends vm vm.
Proof. by repeat split. Qed.

Lemma extends_but_refl p vm : extends_but p vm vm.
Proof. by repeat split. Qed.

Lemma extends_extends_but p vm vm' : extends vm vm' → extends_but p vm vm'.
Proof. intros (? & ? & ? & H). repeat split; auto. Qed.

Lemma extends_but_trans p vm1 vm2 vm3 :
  extends_but p vm1 vm2 → extends_but p vm2 vm3 → extends_but p vm1 vm3.
Proof.
  intros (J1 & T1 & L1 & H1) (J2 & T2 & L2 & H2). repeat split.
  - by etrans.
  - congruence.
  - lia.
  - intros q Hq Hlt. rewrite H2, H1; auto with lia.
Qed.

Lemma store_extends_but p d vm : extends_but p vm (store p d vm).
Proof.
  repeat split; simpl; auto.
  - by rewrite length_insert.
  - intros q Hq _. by rewrite list_lookup_insert_ne.
Qed.

Lemma deref_store p d vm : p < length (heap vm) → deref (store p d vm) p = d.
Proof. intros Hp. unfold deref, store; simpl. by rewrite list_lookup_insert_eq. Qed.

Lemma deref_store_ne p q d vm : p ≠ q → deref (store p d vm) q = deref vm q.
Proof. intros Hp. unfold deref, store; simpl. by rewrite list_lookup_insert_ne. Qed.

Lemma newField_extends_but p structField vm :
  extends_but p vm (newField p structField vm).1.
Proof.
  unfold newField. destruct (parseExprs _ _ _) as [d [err|]]; apply store_extends_but.
Qed.

Lemma setGetter_extends_but p field g vm : extends_but p vm (setGetter p field g vm).
Proof. apply store_extends_but. Qed.

Lemma installGetter_extends_but p field t ptrDeep vm :
  extends_but p vm (installGetter p field t ptrDeep vm).
Proof.
  unfold installGetter. destruct (reflect.isNumeric _); [apply setGetter_extends_but|].
  destruct (reflect.Type_Kind t); apply setGetter_extends_but.
Qed.

Lemma copySubFields_extends_but p field q ptrDeep vm :
  extends_but p vm (copySubFields p field q ptrDeep vm).
Proof.
  unfold copySubFields.
  eapply extends_but_trans; [|apply store_extends_but]. apply store_extends_but.
Qed.

(** The field loop keeps everything but the descriptor it builds, as long
    as the nested registrations keep everything. *)
Lemma registerFields_extends_but register p structFields :
  (∀ t vm vm' r, register t vm = Some (vm', r) → extends vm vm') →
  ∀ vm vm' r, registerFields register p structFields vm = Some (vm', r) →
    extends_but p vm vm'.
Proof.
  intros Hreg. induction structFields as [|structField rest IH]; intros vm vm' r; simpl.
  { intros [= <- _]. apply extends_but_refl. }
  pose proof (newField_extends_but p structField vm) as Hnew.
  destruct (newField p structField vm) as [vm1 [field|err]]; simpl in Hnew;
    [|intros [= <- _]; done].
  destruct (stripPtr (Typ structField)) as [t ptrDeep].
  case_decide.
  - destruct (register (Typ field) vm1) as [[vm2 [sub|err]]|] eqn:Hr; [| |done].
    + intros Hrest. apply IH in Hrest.
      eapply extends_but_trans; [exact Hnew|].
      eapply extends_but_trans; [apply extends_extends_but, (Hreg _ _ _ _ Hr)|].
      eapply extends_but_trans; [apply copySubFields_extends_but|done].
    + intros [= <- _]. eapply extends_but_trans; [exact Hnew|].
      apply extends_extends_but, (Hreg _ _ _ _ Hr).
  - intros Hrest. apply IH in Hrest.
    eapply extends_but_trans; [exact Hnew|].
    eapply extends_but_trans; [apply installGetter_extends_but|done].
Qed.

(** Registration keeps every entry of the registry and every descriptor
    that existed before the call. *)
Lemma registerStructLocked_extends fuel env :
  ∀ structType vm vm' r,
    registerStructLocked fuel env structType vm = Some (vm', r) → extends vm vm'.
Proof.
  induction fuel as [|fuel IH]; intros structType vm vm' r; simpl; [done|].
  destruct (getStructType structType) as [st|err]; [|intros [= <- _]; apply extends_refl].
  destruct (structJar vm !! Type_String st) as [s0|] eqn:Hjar;
    [intros [= <- _]; apply extends_refl|].
  intros Hfields.
  apply (registerFields_extends_but _ _ _ IH) in Hfields.
  destruct Hfields as (J & T & L & H); simpl in *.
  rewrite length_app in L; simpl in L.
  repeat split; simpl.
  - etrans; [|exact J]. by apply insert_subseteq.
  - done.
  - lia.
  - intros q Hq. rewrite H, lookup_app_l; auto with lia.
    rewrite length_app; simpl; lia.
Qed.

End RegistryFacts.

(** ** Registration terminates and is cached *)

Section RegistrationFacts.
Context {Expr : Type} {compiler : ExprCompiler Expr}.
Implicit Types (vm : @VM Expr) (p q : loc).

Lemma registerFields_Done register p structFields :
  ∀ vm vm' s, registerFields register p structFields vm = Some (vm', Done s) → s = p.
Proof.
  induction structFields as [|structField rest IH]; intros vm vm' s; simpl.
  { by intros [= _ <-]. }
  destruct (newField p structField vm) as [vm1 [field|err]]; [|done].
  destruct (stripPtr (Typ structField)) as [t ptrDeep].
  case_decide; [|apply IH].
  destruct (register (Typ field) vm1) as [[vm2 [sub|err]]|]; [apply IH|done..].
Qed.

(** The field loop returns as soon as every nested registration does. *)
Lemma registerFields_terminates register p structFields :
  (∀ t vm vm' r, register t vm = Some (vm', r) → extends vm vm') →
  ∀ vm, (∀ t vm1, structJar vm ⊆ structJar vm1 → is_Some (register t vm1)) →
    is_Some (registerFields register p structFields vm).
Proof.
  intros Hext. induction structFields as [|structField rest IH]; intros vm Hterm; simpl.
  { eauto. }
  pose proof (newField_extends_but p structField vm) as (J1 & _).
  destruct (newField p structField vm) as [vm1 [field|err]]; simpl in J1; [|eauto].
  destruct (stripPtr (Typ structField)) as [t ptrDeep].
  case_decide.
  - destruct (Hterm (Typ field) vm1 J1) as [[vm2 r] Hr]. rewrite Hr.
    destruct r as [sub|err]; [|eauto].
    apply IH. intros t' vm3 J3. apply Hterm.
    apply Hext in Hr as (J2 & _).
    pose proof (copySubFields_extends_but p field sub ptrDeep vm2) as (J2' & _).
    etrans; [exact J1|]. etrans; [exact J2|]. etrans; [exact J2'|exact J3].
  - apply IH. intros t' vm3 J3. apply Hterm.
    pose proof (installGetter_extends_but p field t ptrDeep vm1) as (J2 & _).
    etrans; [exact J1|]. etrans; [exact J2|exact J3].
Qed.

Lemma Type_Fields_cons env st structField rest :
  Type_Fields env st = structField :: rest → Type_String st ∈ dom env.
Proof.
  destruct st as [| | | | | | | |nm]; simpl; try done.
  destruct (env !! nm) eqn:He; [|done]. intros _. apply elem_of_dom. eauto.
Qed.

Lemma registerStructLocked_fuel env :
  ∀ fuel structType vm,
    size (dom env ∖ dom (structJar vm)) < fuel →
    is_Some (registerStructLocked fuel env structType vm).
Proof.
  induction fuel as [|fuel IH]; intros structType vm Hsize; [lia|]. simpl.
  destruct (getStructType structType) as [st|err]; [|eauto].
  destruct (structJar vm !! Type_String st) as [s0|] eqn:Hjar; [eauto|].
  destruct (Type_Fields env st) as [|structField rest] eqn:Hfs; [simpl; eauto|].
  apply Type_Fields_cons in Hfs.
  apply registerFields_terminates; [apply registerStructLocked_extends|].
  simpl. intros t vm1 J1. apply IH.
  assert (Type_String st ∈ dom (structJar vm1)) as Hin.
  { apply elem_of_dom. eapply lookup_weaken_is_Some; [|exact J1].
    rewrite lookup_insert_eq. eauto. }
  assert (dom (structJar vm) ⊆ dom (structJar vm1)) as Hdom.
  { apply subseteq_dom. etrans; [|exact J1]. by apply insert_subseteq. }
  assert (Type_String st ∉ dom (structJar vm)) as Hnot by by apply not_elem_of_dom.
  assert (dom env ∖ dom (structJar vm1) ⊂ dom env ∖ dom (structJar vm)) as Hsub.
  { split.
    - intros x [Hx Hx']%elem_of_difference. apply elem_of_difference. split; auto.
    - intros Hsup. specialize (Hsup (Type_String st)).
      rewrite !elem_of_difference in Hsup. destruct Hsup as [_ Hsup]; auto. }
  apply subset_size in Hsub. lia.
Qed.

(** A registration that returns a descriptor leaves it in the registry
    under the name of the struct type. *)
Lemma registerStructLocked_Done_jar fuel env structType vm vm' s :
  registerStructLocked fuel env structType vm = Some (vm', Done s) →
  ∃ st, getStructType structType = Done st ∧ structJar vm' !! Type_String st = Some s.
Proof.
  destruct fuel as [|fuel]; simpl; [done|].
  destruct (getStructType structType) as [st|err]; [|done].
  destruct (structJar vm !! Type_String st) as [s0|] eqn:Hjar.
  { intros [= <- <-]. eauto. }
  intros Hfields. exists st. split; [done|].
  pose proof (registerFields_Done _ _ _ _ _ _ Hfields) as ->.
  apply registerFields_extends_but in Hfields as (J & _);
    [|apply registerStructLocked_extends].
  eapply lookup_weaken; [|exact J]. simpl. by rewrite lookup_insert_eq.
Qed.

End RegistrationFacts.

(** The result of a sample registration, from the part of it that holds no
    closure. *)
Lemma registered_Done env nm s :
  snd <$> registered env nm = Some (Done s) →
  registered env nm = Some (registryOf env nm, Done s).
Proof.
  unfold registryOf. destruct (registered env nm) as [[vm r]|]; simpl; [|done].
  by intros [= ->].
Qed.

(** C1 (as amended).  Registration of a struct type terminates, also when
    the type contains (directly or through other structs) a pointer to
    itself: [registerStructLocked] enters the new descriptor in the registry
    before it visits the fields, so the nested registration of a type that
    is under construction finds the entry and returns.  A recursion depth
    above the number of declared struct types that the registry lacks is
    never reached. *)
Theorem registerStructLocked_terminates {Expr : Type} {compiler : ExprCompiler Expr}
    (env : TypeEnv) (fuel : nat) (structType : reflect.type) (vm : @VM Expr) :
  size (dom env ∖ dom (structJar vm)) < fuel →
  ∃ vm' r, registerStructLocked fuel env structType vm = Some (vm', r).
Proof.
  intros Hfuel.
  destruct (registerStructLocked_fuel env fuel structType vm Hfuel) as [[vm' r] H].
  eauto.
Qed.

Lemma registerStructLocked_terminates_witness :
  size (dom selfEnv ∖ dom (structJar (New (Expr:=string) "te"))) < 2 ∧
  ∃ vm' r, registerStructLocked 2 selfEnv (reflect.TStruct "main.T") (New "te")
           = Some (vm', r).
Proof.
  split; [vm_compute; lia|].
  apply registerStructLocked_terminates. vm_compute; lia.
Defined.

(** C1 (as stated) fails: the struct [T] with a field [Next *T] is
    registered at recursion depth two. *)
Lemma self_reference_is_registered :
  ¬ (∀ fuel, registerStructLocked fuel selfEnv (reflect.TStruct "main.T") (New "te")
             = None).
Proof.
  intros H. specialize (H 2). apply (f_equal (fmap snd)) in H.
  vm_compute in H. discriminate H.
Qed.

(** The descriptor of [T] after the registration: the fields of [T] itself
    are flattened once under [Next]. *)
Example self_reference_descriptor :
  selectorList (descriptorOf selfEnv "main.T") = ["A@"; "Next.A@"] ∧
  dom (fields (descriptorOf selfEnv "main.T"))
    = ({["A"; "Next"; "Next.A"; "Next.Next"]} : gset string).
Proof. split; [by vm_compute|]. apply (bool_decide_unpack _). by vm_compute. Qed.

(** ** A second registration is a lookup *)

Section Cached.
Context {Expr : Type}.
Implicit Types (compiler : ExprCompiler Expr) (vm : @VM Expr).



End Cached.



(** ** Range *)

Section RangeFacts.
Context {Expr W : Type}.
Variable run : Expr → string → TagExpr → W → W * reflect.outcome reflect.iface.
Variable exprs : gmap string Expr.
Variable t : TagExpr.
Variable fn : string → (W → W * reflect.outcome reflect.iface) → W → W * bool.

Local Abbreviation call := (callOn run exprs t fn).
Local Abbreviation after := (afterCalls run exprs t fn).

Lemma RangeLoop_all_continue selectors w :
  (∀ i selector, selectors !! i = Some selector →
     (call (after (take i selectors) w) selector).2 = true) →
  RangeLoop run exprs t fn selectors w = after selectors w.
Proof.
  revert w. induction selectors as [|selector rest IH]; intros w Hall; [done|].
  simpl. pose proof (Hall 0 selector eq_refl) as H0. simpl in H0.
  unfold afterCalls, callOn in *. simpl.
  destruct (fn selector (evalThunk run exprs t selector) w) as [w1 b] eqn:Hcall.
  simpl in H0. subst b. apply IH. intros i sel Hi.
  specialize (Hall (S i) sel Hi). simpl in Hall. by rewrite Hcall in Hall.
Qed.

Lemma RangeLoop_stops selectors w i selector :
  selectors !! i = Some selector →
  (∀ j selj, j < i → selectors !! j = Some selj →
     (call (after (take j selectors) w) selj).2 = true) →
  (call (after (take i selectors) w) selector).2 = false →
  RangeLoop run exprs t fn selectors w = (call (after (take i selectors) w) selector).1.
Proof.
  revert w i. induction selectors as [|sel0 rest IH]; intros w i Hi Hbefore Hstop; [done|].
  simpl. unfold afterCalls, callOn in *.
  destruct i as [|i]; simpl in *.
  - injection Hi as ->.
    destruct (fn selector (evalThunk run exprs t selector) w) as [w1 b]. simpl in *.
    by subst b.
  - pose proof (Hbefore 0 sel0 ltac:(lia) eq_refl) as H0. simpl in H0.
    destruct (fn sel0 (evalThunk run exprs t sel0) w) as [w1 b] eqn:Hcall.
    simpl in H0. subst b. apply IH; [done| |done].
    intros j selj Hj Hsel. specialize (Hbefore (S j) selj ltac:(lia) Hsel).
    simpl in Hbefore. by rewrite Hcall in Hbefore.
Qed.

End RangeFacts.

(** C7.  [Range] calls the callback on the selectors of [selectorList], the
    list to which registration appends, from the first on and in that
    order: as long as the callback returns true the state is the one after
    the calls on the selectors so far.  When the callback returns false on
    the selector at position [i], the state that [Range] leaves is the state
    right after that call: the callback is not called again, and since no
    expression is run but by the closure handed to the callback, nothing is
    evaluated for a later selector. *)
Theorem Range_in_order_until_false {Expr W : Type}
    (run : Expr → string → TagExpr → W → W * reflect.outcome reflect.iface)
    (d : @Struct Expr) (t : TagExpr)
    (fn : string → (W → W * reflect.outcome reflect.iface) → W → W * bool) (w : W) :
  let call := callOn run (exprs d) t fn in
  let after := afterCalls run (exprs d) t fn in
  ((∀ i selector, selectorList d !! i = Some selector →
      (call (after (take i (selectorList d)) w) selector).2 = true) →
   Range run d t fn w = after (selectorList d) w) ∧
  (∀ i selector,
      selectorList d !! i = Some selector →
      (∀ j selj, j < i → selectorList d !! j = Some selj →
         (call (after (take j (selectorList d)) w) selj).2 = true) →
      (call (after (take i (selectorList d)) w) selector).2 = false →
      Range run d t fn w = (call (after (take i (selectorList d)) w) selector).1).
Proof.
  split.
  - intros Hall. by apply RangeLoop_all_continue.
  - intros i selector Hi Hbefore Hstop. by apply RangeLoop_stops.
Qed.

Lemma Range_in_order_until_false_witness :
  Range toyRun (descriptorOf sampleEnv "main.ABC") at4096 (visitUntil "B@") []
  = ["A@"; "run 1"; "B@"; "run 2"].
Proof.
  etrans.
  - apply (proj2 (Range_in_order_until_false toyRun (descriptorOf sampleEnv "main.ABC")
                    at4096 (visitUntil "B@") []) 1 "B@").
    + reflexivity.
    + intros j selj Hj. destruct j as [|j]; [|lia]. intros [= <-]. reflexivity.
    + reflexivity.
  - reflexivity.
Defined.

(** ** Run and the shape of its argument *)

Section RunFacts.
Context {Expr : Type} {compiler : ExprCompiler Expr}.
Implicit Types (vm : @VM Expr).

Lemma stripPtr_pointers n t : (stripPtr (pointers n t)).1 = (stripPtr t).1.
Proof.
  induction n as [|n IH]; [done|]. simpl.
  destruct (stripPtr (pointers n t)) as [t' k] eqn:H. simpl in *. done.
Qed.

Lemma getStructType_pointers n nm :
  getStructType (pointers n (reflect.TStruct nm)) = Done (reflect.TStruct nm).
Proof.
  unfold getStructType. by rewrite stripPtr_pointers.
Qed.

Lemma registerStructLocked_pointers fuel env n nm vm :
  registerStructLocked fuel env (pointers n (reflect.TStruct nm)) vm
  = registerStructLocked fuel env (reflect.TStruct nm) vm.
Proof.
  destruct fuel as [|fuel]; [done|]. simpl.
  by rewrite getStructType_pointers.
Qed.

Lemma Run_nil fuel env vm :
  Run fuel env None vm = Some (vm, reflect.Ret (Fail ErrRunNil)).
Proof. done. Qed.

Lemma Run_not_pointer fuel env vt g vm :
  reflect.Type_Kind vt ≠ reflect.Ptr →
  Run fuel env (Some (vt, g)) vm = Some (vm, reflect.Ret (Fail (ErrNotStructPtr vt))).
Proof. intros H. unfold Run. simpl. by rewrite decide_True. Qed.

Lemma Run_pointer_not_to_struct fuel env t a vm :
  reflect.Type_Kind t ≠ reflect.Struct ∨ a = 0%Z →
  Run fuel env (Some (reflect.TPtr t, reflect.GPtr a)) vm
  = Some (vm, reflect.Ret (Fail (ErrNotStructPtr (reflect.TPtr t)))).
Proof.
  intros H. unfold Run. simpl. case_decide as Ha; simpl.
  - done.
  - destruct H as [H|H]; [|done]. by rewrite decide_True.
Qed.

Lemma Run_unregistered fuel env nm a vm :
  a ≠ 0%Z → structJar vm !! nm = None →
  Run fuel env (Some (reflect.TPtr (reflect.TStruct nm), reflect.GPtr a)) vm
  = match registerStructLocked fuel env (reflect.TStruct nm) vm with
    | None => None
    | Some (vm', Fail err) => Some (vm', reflect.Ret (Fail err))
    | Some (vm', Done s) => Some (vm', reflect.Ret (Done {| s := s; ptr := a |}))
    end.
Proof.
  intros Ha Hjar. unfold Run. simpl. rewrite decide_False by done. simpl.
  rewrite Hjar. by destruct (registerStructLocked _ _ _ _) as [[vm' [s|err]]|].
Qed.

End RunFacts.

(** C10.  [Run] accepts one pointer layer: on a pointer to a pointer,
    whatever it points to and nil or not, it returns the not-structure-
    pointer error and leaves the registry alone.  Registration resolves any
    number of pointer layers: [registerStructLocked] on a struct type behind
    [n] pointers is the registration of the struct type, and [WarmUp] of
    such a value succeeds exactly when that registration does. *)
Theorem Run_one_pointer_layer_only {Expr : Type} {compiler : ExprCompiler Expr}
    (fuel : nat) (env : TypeEnv) (vm : @VM Expr) :
  (∀ t a,
      Run fuel env (Some (reflect.TPtr (reflect.TPtr t), reflect.GPtr a)) vm
      = Some (vm, reflect.Ret (Fail (ErrNotStructPtr (reflect.TPtr (reflect.TPtr t)))))) ∧
  (∀ n nm,
      registerStructLocked fuel env (pointers n (reflect.TStruct nm)) vm
      = registerStructLocked fuel env (reflect.TStruct nm) vm) ∧
  (∀ n nm g,
      WarmUp fuel env [Some (pointers n (reflect.TStruct nm), g)] vm
      = match registerStructLocked fuel env (reflect.TStruct nm) vm with
        | None => None
        | Some (vm', Fail err) => Some (vm', Some err)
        | Some (vm', Done _) => Some (vm', None)
        end).
Proof.
  split; [|split].
  - intros t a. apply Run_pointer_not_to_struct. left. done.
  - intros n nm. apply registerStructLocked_pointers.
  - intros n nm g. simpl. rewrite registerStructLocked_pointers.
    by destruct (registerStructLocked _ _ _ _) as [[vm' [s|err]]|].
Qed.

(** A [**User] is refused by [Run] and registered by [WarmUp]. *)
Example double_pointer_User :
  snd <$> Run 4 sampleEnv
            (Some (pointers 2 (reflect.TStruct "main.User"), reflect.GPtr 4096%Z)) (New "te")
  = Some (reflect.Ret (Fail (ErrNotStructPtr (pointers 2 (reflect.TStruct "main.User"))))) ∧
  (λ r, (structJar r.1 !! "main.User", r.2)) <$>
    WarmUp 4 sampleEnv [Some (pointers 2 (reflect.TStruct "main.User"), reflect.GPtr 4096%Z)]
      (New "te")
  = Some (Some 0, None).
Proof. split; by vm_compute. Qed.

(** C5 (as amended).  [Run] returns an error, and leaves the registry as it
    is, when its argument is nil, is not a pointer, is a pointer to
    something that is not a struct, or is a nil pointer.  On a non-nil
    pointer to a struct whose type is not in the registry, [Run] registers
    the type: when the registration returns a descriptor, [Run] returns an
    evaluator bound to that descriptor and to the address, and the type is
    in the registry; when the registration reports an error (a malformed
    annotation, a duplicate expression name, an expression that does not
    compile), [Run] returns that error. *)
Theorem Run_validates_and_registers {Expr : Type} {compiler : ExprCompiler Expr}
    (fuel : nat) (env : TypeEnv) (vm : @VM Expr) :
  Run fuel env None vm = Some (vm, reflect.Ret (Fail ErrRunNil)) ∧
  (∀ vt g, reflect.Type_Kind vt ≠ reflect.Ptr →
     Run fuel env (Some (vt, g)) vm = Some (vm, reflect.Ret (Fail (ErrNotStructPtr vt)))) ∧
  (∀ t a, reflect.Type_Kind t ≠ reflect.Struct ∨ a = 0%Z →
     Run fuel env (Some (reflect.TPtr t, reflect.GPtr a)) vm
     = Some (vm, reflect.Ret (Fail (ErrNotStructPtr (reflect.TPtr t))))) ∧
  (∀ nm a, a ≠ 0%Z → structJar vm !! nm = None →
     (∀ vm' s,
        registerStructLocked fuel env (reflect.TStruct nm) vm = Some (vm', Done s) →
        Run fuel env (Some (reflect.TPtr (reflect.TStruct nm), reflect.GPtr a)) vm
        = Some (vm', reflect.Ret (Done {| s := s; ptr := a |})) ∧
        structJar vm' !! nm = Some s) ∧
     (∀ vm' err,
        registerStructLocked fuel env (reflect.TStruct nm) vm = Some (vm', Fail err) →
        Run fuel env (Some (reflect.TPtr (reflect.TStruct nm), reflect.GPtr a)) vm
        = Some (vm', reflect.Ret (Fail err)))).
Proof.
  split; [apply Run_nil|]. split; [intros vt g; apply Run_not_pointer|].
  split; [intros t a; apply Run_pointer_not_to_struct|].
  intros nm a Ha Hjar. split.
  - intros vm' s Hreg. rewrite Run_unregistered, Hreg by done. split; [done|].
    apply registerStructLocked_Done_jar in Hreg as (st & Hst & Hs).
    unfold getStructType in Hst. simpl in Hst. by injection Hst as <-.
  - intros vm' err Hreg. by rewrite Run_unregistered, Hreg.
Qed.

Lemma Run_validates_and_registers_witness :
  Run 4 sampleEnv (Some (reflect.TPtr (reflect.TStruct "main.User"), reflect.GPtr 4096%Z))
    (New "te")
  = Some (registryOf sampleEnv "main.User", reflect.Ret (Done {| s := 0; ptr := 4096%Z |})) ∧
  structJar (registryOf sampleEnv "main.User") !! "main.User" = Some 0.
Proof.
  apply (Run_validates_and_registers 4 sampleEnv (New "te")).
  - discriminate.
  - reflexivity.
  - apply registered_Done. vm_compute. reflexivity.
Defined.

(** C5 (as stated) fails: [Bad] is a struct type that is not registered and
    the pointer is not nil, yet [Run] does not succeed, at any recursion
    depth: the annotation of its field is malformed and [Run] returns the
    syntax error. *)
Lemma Run_unseen_type_fails :
  structJar (New (Expr:=string) "te") !! "main.Bad" = None ∧
  snd <$> Run 4 sampleEnv
            (Some (reflect.TPtr (reflect.TStruct "main.Bad"), reflect.GPtr 4096%Z)) (New "te")
  = Some (reflect.Ret (Fail (ErrSyntax "{"))) ∧
  ∀ fuel vm' te,
    Run fuel sampleEnv
      (Some (reflect.TPtr (reflect.TStruct "main.Bad"), reflect.GPtr 4096%Z)) (New "te")
    ≠ Some (vm', reflect.Ret (Done te)).
Proof.
  split; [done|]. split; [by vm_compute|].
  intros fuel vm' te H. apply (f_equal (fmap snd)) in H.
  destruct fuel as [|fuel]; [done|]. vm_compute in H. discriminate H.
Qed.

(** ** Flattening *)

(** *** Selectors of different fields are different strings *)

Lemma app_nil_l t : "" +:+ t = t.
Proof. done. Qed.

Lemma app_cons c s t : String c s +:+ t = String c (s +:+ t).
Proof. done. Qed.

Lemma dotted_inj ns ns' k k' :
  occurs "." ns = false → occurs "." ns' = false →
  ns +:+ "." +:+ k = ns' +:+ "." +:+ k' → ns = ns' ∧ k = k'.
Proof.
  revert ns'. induction ns as [|c ns IH]; intros [|c' ns']; simpl; intros H1 H2 Heq;
    rewrite ?app_cons, ?app_nil_l in Heq.
  - by injection Heq as ->.
  - injection Heq as <- _. by rewrite bool_decide_eq_true_2 in H2.
  - injection Heq as -> _. by rewrite bool_decide_eq_true_2 in H1.
  - injection Heq as -> Heq.
    apply orb_false_iff in H1 as [_ H1]. apply orb_false_iff in H2 as [_ H2].
    destruct (IH ns' H1 H2 Heq) as [-> ->]. done.
Qed.

Lemma at_not_dotted fname x ns k :
  occurs "." fname = false → occurs "@" ns = false →
  fname +:+ "@" +:+ x ≠ ns +:+ "." +:+ k.
Proof.
  revert ns. induction fname as [|c fname IH]; intros [|c' ns]; simpl; intros H1 H2 Heq;
    rewrite ?app_cons, ?app_nil_l in Heq.
  - done.
  - injection Heq as <- _. by rewrite bool_decide_eq_true_2 in H2.
  - injection Heq as -> _. by rewrite bool_decide_eq_true_2 in H1.
  - injection Heq as -> Heq.
    apply orb_false_iff in H1 as [_ H1]. apply orb_false_iff in H2 as [_ H2].
    by apply (IH ns H1 H2).
Qed.

Lemma plain_not_dotted fname ns k :
  occurs "." fname = false → fname ≠ ns +:+ "." +:+ k.
Proof.
  revert ns. induction fname as [|c fname IH]; intros [|c' ns]; simpl; intros H1 Heq;
    rewrite ?app_cons, ?app_nil_l in Heq; try done.
  - injection Heq as -> _. by rewrite bool_decide_eq_true_2 in H1.
  - injection Heq as -> Heq. apply orb_false_iff in H1 as [_ H1]. by apply (IH ns H1).
Qed.

(** *** Registry entries point to different, existing descriptors *)

Section JarFacts.
Context {Expr : Type} {compiler : ExprCompiler Expr}.
Implicit Types (vm : @VM Expr) (p q : loc).

Lemma jar_ok_New tag : jar_ok (New (Expr:=Expr) tag).
Proof. split; intros *; simpl; by rewrite lookup_empty. Qed.

Lemma jar_ok_same vm vm' :
  structJar vm' = structJar vm → length (heap vm') = length (heap vm) →
  jar_ok vm → jar_ok vm'.
Proof. intros HJ HL [H1 H2]. split; rewrite ?HJ, ?HL; done. Qed.

Lemma jar_ok_store p d vm : jar_ok vm → jar_ok (store p d vm).
Proof. apply jar_ok_same; simpl; [done|]. by rewrite length_insert. Qed.

Lemma jar_ok_newField p structField vm : jar_ok vm → jar_ok (newField p structField vm).1.
Proof.
  unfold newField. destruct (parseExprs _ _ _) as [d [err|]]; apply jar_ok_store.
Qed.

Lemma jar_ok_installGetter p field t ptrDeep vm :
  jar_ok vm → jar_ok (installGetter p field t ptrDeep vm).
Proof.
  unfold installGetter, setGetter. destruct (reflect.isNumeric _); [apply jar_ok_store|].
  destruct (reflect.Type_Kind t); apply jar_ok_store.
Qed.

Lemma jar_ok_copySubFields p field q ptrDeep vm :
  jar_ok vm → jar_ok (copySubFields p field q ptrDeep vm).
Proof. intros H. unfold copySubFields. by do 2 apply jar_ok_store. Qed.

Lemma registerFields_jar_ok register p structFields :
  (∀ t vm vm' r, register t vm = Some (vm', r) → jar_ok vm → jar_ok vm') →
  ∀ vm vm' r, registerFields register p structFields vm = Some (vm', r) →
    jar_ok vm → jar_ok vm'.
Proof.
  intros Hreg. induction structFields as [|structField rest IH]; intros vm vm' r; simpl.
  { by intros [= <- _]. }
  pose proof (jar_ok_newField p structField vm) as Hnew.
  destruct (newField p structField vm) as [vm1 [field|err]]; simpl in Hnew;
    [|intros [= <- _]; done].
  destruct (stripPtr (Typ structField)) as [t ptrDeep].
  case_decide.
  - destruct (register (Typ field) vm1) as [[vm2 [sub|err]]|] eqn:Hr; [| |done].
    + intros Hrest Hok. eapply IH; [exact Hrest|].
      apply jar_ok_copySubFields. eauto.
    + intros [= <- _] Hok. eauto.
  - intros Hrest Hok. eapply IH; [exact Hrest|]. apply jar_ok_installGetter. auto.
Qed.

Lemma registerStructLocked_jar_ok fuel env :
  ∀ structType vm vm' r,
    registerStructLocked fuel env structType vm = Some (vm', r) → jar_ok vm → jar_ok vm'.
Proof.
  induction fuel as [|fuel IH]; intros structType vm vm' r; simpl; [done|].
  destruct (getStructType structType) as [st|err]; [|by intros [= <- _]].
  destruct (structJar vm !! Type_String st) as [s0|] eqn:Hjar; [by intros [= <- _]|].
  intros Hfields [Hlt Hinj].
  eapply (registerFields_jar_ok _ _ _ IH); [exact Hfields|].
  split; simpl.
  - intros k q. rewrite length_app; simpl. rewrite lookup_insert.
    case_decide; [intros [= <-]; lia|]. intros Hq%Hlt. lia.
  - intros k1 k2 q. rewrite !lookup_insert.
    repeat case_decide; subst; try done.
    + intros [= <-] Hq%Hlt. lia.
    + intros Hq%Hlt [= <-]. lia.
    + apply Hinj.
Qed.

End JarFacts.

(** *** What [copySubFields] writes *)

Section CopyFacts.
Context {Expr : Type} {compiler : ExprCompiler Expr}.
Implicit Types (vm : @VM Expr) (p q : loc) (d : @Struct Expr) (field : Field).

Lemma foldl_copyExpr_fields field d (l : list (string * Expr)) :
  fields (foldl (copyExpr field) d l) = fields d.
Proof. revert d. induction l as [|[k e] l IH]; intros d; simpl; [done|]. by rewrite IH. Qed.

Lemma foldl_copyField_exprs field ptrDeep d (l : list (string * Field)) :
  exprs (foldl (copyField field ptrDeep) d l) = exprs d.
Proof. revert d. induction l as [|[k e] l IH]; intros d; simpl; [done|]. by rewrite IH. Qed.

Lemma foldl_copyExpr_other field d (l : list (string * Expr)) key :
  (∀ k, key ≠ Name field +:+ "." +:+ k) →
  exprs (foldl (copyExpr field) d l) !! key = exprs d !! key.
Proof.
  intros Hkey. revert d. induction l as [|[k e] l IH]; intros d; simpl; [done|].
  rewrite IH. simpl. rewrite lookup_insert_ne; [done|]. intros H. by apply (Hkey k).
Qed.

Lemma foldl_copyField_other field ptrDeep d (l : list (string * Field)) key :
  (∀ k, key ≠ Name field +:+ "." +:+ k) →
  fields (foldl (copyField field ptrDeep) d l) !! key = fields d !! key.
Proof.
  intros Hkey. revert d. induction l as [|[k e] l IH]; intros d; simpl; [done|].
  rewrite IH. simpl. rewrite lookup_insert_ne; [done|]. intros H. by apply (Hkey k).
Qed.

Lemma dotted_key_inj ns k k' : ns +:+ "." +:+ k = ns +:+ "." +:+ k' → k = k'.
Proof. intros H. apply (inj (String.app ns)) in H. by injection H. Qed.

Lemma foldl_copyExpr_lookup field (l : list (string * Expr)) :
  NoDup l.*1 →
  ∀ d k e,
    (k, e) ∈ l ∨ (exprs d !! (Name field +:+ "." +:+ k) = Some e ∧ k ∉ l.*1) →
    exprs (foldl (copyExpr field) d l) !! (Name field +:+ "." +:+ k) = Some e.
Proof.
  induction l as [|[k0 e0] l IH]; intros Hnd d k e; simpl.
  { intros [H|[H _]]; [by apply elem_of_nil in H|done]. }
  apply NoDup_cons in Hnd as [Hk0 Hnd]. simpl in Hk0.
  intros [H|[H Hk]]; apply IH; try done.
  - apply elem_of_cons in H as [[= -> ->]|H]; [|by left].
    right. simpl. by rewrite lookup_insert_eq.
  - right. apply not_elem_of_cons in Hk as [Hne Hk]. simpl. split; [|done].
    rewrite lookup_insert_ne; [done|]. intros Heq. by apply dotted_key_inj in Heq.
Qed.

Lemma foldl_copyField_lookup field ptrDeep (l : list (string * Field)) :
  NoDup l.*1 →
  ∀ d k f f',
    f' = {| sf := sf f; host := host f;
            valueGetter := subGetter field ptrDeep <$> valueGetter f |} →
    (k, f) ∈ l ∨ (fields d !! (Name field +:+ "." +:+ k) = Some f' ∧ k ∉ l.*1) →
    fields (foldl (copyField field ptrDeep) d l) !! (Name field +:+ "." +:+ k) = Some f'.
Proof.
  induction l as [|[k0 f0] l IH]; intros Hnd d k f f' ->; simpl.
  { intros [H|[H _]]; [by apply elem_of_nil in H|done]. }
  apply NoDup_cons in Hnd as [Hk0 Hnd]. simpl in Hk0.
  intros [H|[H Hk]]; eapply IH; try done.
  - apply elem_of_cons in H as [[= -> ->]|H]; [|by left].
    right. simpl. by rewrite lookup_insert_eq.
  - right. apply not_elem_of_cons in Hk as [Hne Hk]. simpl. split; [|done].
    rewrite lookup_insert_ne; [done|]. intros Heq. by apply dotted_key_inj in Heq.
Qed.

(** Every selector and every field of the nested descriptor shows in the
    host under the name of the field, a dot, and its own name. *)
Lemma copySubFields_copies p field q ptrDeep vm :
  p < length (heap vm) →
  (∀ k e, exprs (deref vm q) !! k = Some e →
     exprs (deref (copySubFields p field q ptrDeep vm) p) !! (Name field +:+ "." +:+ k)
     = Some e) ∧
  (∀ k f, fields (deref vm q) !! k = Some f →
     fields (deref (copySubFields p field q ptrDeep vm) p) !! (Name field +:+ "." +:+ k)
     = Some {| sf := sf f; host := host f;
               valueGetter := subGetter field ptrDeep <$> valueGetter f |}).
Proof.
  intros Hp. unfold copySubFields.
  set (d1 := foldl (copyField field ptrDeep) (deref vm p) (map_to_list (fields (deref vm q)))).
  assert (p < length (heap (store p d1 vm))) as Hp1 by (simpl; by rewrite length_insert).
  rewrite !deref_store by done.
  assert (exprs (deref (store p d1 vm) q) = exprs (deref vm q)) as Hq.
  { destruct (decide (p = q)) as [<-|Hne]; [|by rewrite deref_store_ne].
    rewrite deref_store by done. apply foldl_copyField_exprs. }
  split.
  - intros k e Hk. apply foldl_copyExpr_lookup; [apply NoDup_fst_map_to_list|].
    left. apply elem_of_map_to_list. by rewrite Hq.
  - intros k f Hk. rewrite foldl_copyExpr_fields.
    eapply foldl_copyField_lookup; [apply NoDup_fst_map_to_list|reflexivity|].
    left. by apply elem_of_map_to_list.
Qed.

(** Entries under other names are left alone. *)
Lemma copySubFields_other p field q ptrDeep vm key :
  p < length (heap vm) →
  (∀ k, key ≠ Name field +:+ "." +:+ k) →
  exprs (deref (copySubFields p field q ptrDeep vm) p) !! key = exprs (deref vm p) !! key ∧
  fields (deref (copySubFields p field q ptrDeep vm) p) !! key = fields (deref vm p) !! key.
Proof.
  intros Hp Hkey. unfold copySubFields.
  set (d1 := foldl (copyField field ptrDeep) (deref vm p) (map_to_list (fields (deref vm q)))).
  assert (p < length (heap (store p d1 vm))) as Hp1 by (simpl; by rewrite length_insert).
  rewrite !deref_store by done. split.
  - rewrite foldl_copyExpr_other by done. subst d1. by rewrite foldl_copyField_exprs.
  - rewrite foldl_copyExpr_fields. by apply foldl_copyField_other.
Qed.

End CopyFacts.

(** *** What the rest of the registration leaves alone *)

Section KeepFacts.
Context {Expr : Type} {compiler : ExprCompiler Expr}.
Implicit Types (vm : @VM Expr) (p q : loc) (d : @Struct Expr) (field : Field).

Lemma parseExprsLoop_other fuel fname raw key :
  (∀ x, key ≠ fname +:+ "@" +:+ x) →
  ∀ tag d d' err,
    parseExprsLoop fuel fname raw tag d = Some (d', err) →
    exprs d' !! key = exprs d !! key ∧ fields d' = fields d.
Proof.
  intros Hkey. induction fuel as [|fuel IH]; intros tag d d' err; simpl; [done|].
  destruct (readPairedSymbol tag "{" "}") as [[subtag tag']|]; [|by intros [= <- _]].
  destruct (strings_Index subtag ":") as [[|i]|]; try by intros [= <- _].
  case_decide; [apply IH|].
  set (sel := if decide (_ = "@") then _ else _).
  assert (key ≠ sel) as Hsel.
  { subst sel. case_decide as Hat; [rewrite Hat; apply (Hkey "")|apply Hkey]. }
  destruct (exprs d !! sel); [by intros [= <- _]|].
  case_decide; [by intros [= <- _]|].
  destruct (parseExpr _) as [expr|e]; [|by intros [= <- _]].
  case_decide.
  - intros [= <- _]. simpl. by rewrite lookup_insert_ne.
  - intros Hloop. apply IH in Hloop as [He Hf]. simpl in *.
    by rewrite lookup_insert_ne in He.
Qed.

Lemma parseExprs_other fname tag d key :
  (∀ x, key ≠ fname +:+ "@" +:+ x) →
  exprs (parseExprs fname tag d).1 !! key = exprs d !! key ∧
  fields (parseExprs fname tag d).1 = fields d.
Proof.
  intros Hkey. unfold parseExprs. case_decide; [done|].
  assert (∀ o : option (Struct * option error),
            (∀ r, o = Some r → exprs r.1 !! key = exprs d !! key ∧ fields r.1 = fields d) →
            exprs (match o with Some r => r | None => (d, Some (ErrSyntax tag)) end).1 !! key
            = exprs d !! key ∧
            fields (match o with Some r => r | None => (d, Some (ErrSyntax tag)) end).1
            = fields d) as Hloop.
  { intros [r|] Ho; [by apply Ho|done]. }
  assert (exprs (match parseExpr (TrimSpace tag) with
                 | Done expr => (addExpr (fname +:+ "@") expr d, None)
                 | Fail err => (d, Some err)
                 end).1 !! key = exprs d !! key ∧
          fields (match parseExpr (TrimSpace tag) with
                  | Done expr => (addExpr (fname +:+ "@") expr d, None)
                  | Fail err => (d, Some err)
                  end).1 = fields d) as Hplain.
  { destruct (parseExpr (TrimSpace tag)); simpl; [|done].
    rewrite lookup_insert_ne; [done|]. intros Heq. by apply (Hkey ""). }
  destruct (TrimSpace tag) as [|c rest] eqn:Htag; [done|].
  destruct c as [[] [] [] [] [] [] [] []]; try exact Hplain.
  apply Hloop. intros [d' err] Hr. by eapply parseExprsLoop_other.
Qed.

Lemma newField_other p structField vm key :
  p < length (heap vm) →
  (∀ x, key ≠ Name structField +:+ "@" +:+ x) → key ≠ Name structField →
  exprs (deref (newField p structField vm).1 p) !! key = exprs (deref vm p) !! key ∧
  fields (deref (newField p structField vm).1 p) !! key = fields (deref vm p) !! key.
Proof.
  intros Hp Hkey Hname. unfold newField. simpl.
  pose proof (parseExprs_other (Name structField)
                (StructTag_Get (Tag structField) (tagName vm)) (deref vm p) key Hkey)
    as [He Hf].
  destruct (parseExprs _ _ _) as [d [err|]]; simpl in *; rewrite deref_store by done.
  - by rewrite Hf.
  - simpl. rewrite lookup_insert_ne by done. by rewrite Hf.
Qed.

Lemma installGetter_other p field t ptrDeep vm key :
  p < length (heap vm) → key ≠ Name field →
  exprs (deref (installGetter p field t ptrDeep vm) p) !! key = exprs (deref vm p) !! key ∧
  fields (deref (installGetter p field t ptrDeep vm) p) !! key = fields (deref vm p) !! key.
Proof.
  intros Hp Hname.
  assert (∀ g, exprs (deref (setGetter p field g vm) p) !! key = exprs (deref vm p) !! key ∧
               fields (deref (setGetter p field g vm) p) !! key = fields (deref vm p) !! key)
    as Hset.
  { intros g. unfold setGetter. rewrite deref_store by done. simpl.
    by rewrite lookup_insert_ne. }
  unfold installGetter. destruct (reflect.isNumeric _); [apply Hset|].
  destruct (reflect.Type_Kind t); apply Hset.
Qed.

Lemma newField_Done p structField vm vm' field :
  newField p structField vm = (vm', Done field) → sf field = structField.
Proof.
  unfold newField. destruct (parseExprs _ _ _) as [d [err|]]; [done|]. by intros [= _ <-].
Qed.

Lemma extends_but_length p vm vm' :
  extends_but p vm vm' → p < length (heap vm) → p < length (heap vm').
Proof. intros (_ & _ & L & _) Hp. lia. Qed.

Lemma extends_deref vm vm' q : extends vm vm' → q < length (heap vm) → deref vm' q = deref vm q.
Proof. intros (_ & _ & _ & H) Hq. unfold deref. by rewrite H. Qed.

Lemma extends_but_deref p vm vm' q :
  extends_but p vm vm' → q ≠ p → q < length (heap vm) → deref vm' q = deref vm q.
Proof. intros (_ & _ & _ & H) Hne Hq. unfold deref. by rewrite H. Qed.

(** The entries that a flattening has put in the host under the field name
    [ns] stay as they are while the later fields are registered, as long as
    these have other names. *)
Lemma registerFields_keeps register p ns k structFields :
  (∀ t vm vm' r, register t vm = Some (vm', r) → extends vm vm') →
  occurs "." ns = false → occurs "@" ns = false →
  Forall (λ f, occurs "." (Name f) = false ∧ Name f ≠ ns) structFields →
  ∀ vm vm' r,
    registerFields register p structFields vm = Some (vm', r) →
    p < length (heap vm) →
    exprs (deref vm' p) !! (ns +:+ "." +:+ k) = exprs (deref vm p) !! (ns +:+ "." +:+ k) ∧
    fields (deref vm' p) !! (ns +:+ "." +:+ k) = fields (deref vm p) !! (ns +:+ "." +:+ k).
Proof.
  intros Hreg Hdot Hat. induction structFields as [|structField rest IH];
    intros Hall vm vm' r; simpl.
  { by intros [= <- _]. }
  apply Forall_cons in Hall as [[Hfdot Hfne] Hall]. specialize (IH Hall).
  pose proof (newField_extends_but p structField vm) as Hnew.
  pose proof (newField_other p structField vm (ns +:+ "." +:+ k)) as Hother.
  pose proof (newField_Done p structField vm) as Hsf.
  destruct (newField p structField vm) as [vm1 [field|err]]; simpl in *.
  2:{ intros [= <- _] Hp. apply Hother; [done| |].
      - intros x Heq. symmetry in Heq. by apply at_not_dotted in Heq.
      - intros Heq. symmetry in Heq. by apply plain_not_dotted in Heq. }
  specialize (Hsf _ _ eq_refl).
  assert (Name field = Name structField) as Hname by by rewrite Hsf.
  destruct (stripPtr (Typ structField)) as [t ptrDeep].
  intros Hrest Hp.
  assert (p < length (heap vm1)) as Hp1 by by eapply extends_but_length.
  destruct (Hother Hp) as [He1 Hf1].
  { intros x Heq. symmetry in Heq. by apply at_not_dotted in Heq. }
  { intros Heq. symmetry in Heq. by apply plain_not_dotted in Heq. }
  rewrite <- He1, <- Hf1. clear He1 Hf1 Hother.
  case_decide.
  - destruct (register (Typ field) vm1) as [[vm2 [sub|err]]|] eqn:Hr; [| |done].
    + apply Hreg in Hr.
      assert (p < length (heap vm2)) as Hp2 by (destruct Hr as (_ & _ & L & _); lia).
      apply IH in Hrest as [He Hf];
        [|by eapply extends_but_length; [apply copySubFields_extends_but|]].
      rewrite He, Hf.
      destruct (copySubFields_other p field sub ptrDeep vm2 (ns +:+ "." +:+ k) Hp2)
        as [He2 Hf2].
      { intros k' Heq. apply dotted_inj in Heq as [Heq _]; [|done|by rewrite Hname].
        rewrite Hname in Heq. by subst. }
      rewrite He2, Hf2. by rewrite (extends_deref _ _ _ Hr Hp1).
    + injection Hrest as <- _. apply Hreg in Hr. by rewrite (extends_deref _ _ _ Hr Hp1).
  - apply IH in Hrest as [He Hf];
      [|by eapply extends_but_length; [apply installGetter_extends_but|]].
    rewrite He, Hf. apply installGetter_other; [done|].
    rewrite Hname. intros Heq. symmetry in Heq. by apply plain_not_dotted in Heq.
Qed.

(** The field loop over a list that is cut in two. *)
Lemma registerFields_app register p l1 l2 :
  ∀ vm vm' s,
    registerFields register p (l1 ++ l2) vm = Some (vm', Done s) →
    ∃ vm1, registerFields register p l1 vm = Some (vm1, Done p) ∧
           registerFields register p l2 vm1 = Some (vm', Done s).
Proof.
  induction l1 as [|structField rest IH]; intros vm vm' s; simpl.
  { intros H. eauto. }
  destruct (newField p structField vm) as [vm1 [field|err]]; [|done].
  destruct (stripPtr (Typ structField)) as [t ptrDeep].
  case_decide; [|apply IH].
  destruct (register (Typ field) vm1) as [[vm2 [sub|err]]|]; [apply IH|done..].
Qed.

End KeepFacts.

Section FlattenFacts.
Context {Expr : Type} {compiler : ExprCompiler Expr}.
Implicit Types (vm : @VM Expr) (p q : loc).

Lemma flattening_in_registration fuel env vm nm vm' p pre (field : StructField) post
    sub ptrDeep :
  jar_ok vm →
  structJar vm !! nm = None →
  env !! nm = Some (pre ++ field :: post) →
  registerStructLocked fuel env (reflect.TStruct nm) vm = Some (vm', Done p) →
  stripPtr (Typ field) = (reflect.TStruct sub, ptrDeep) →
  sub ≠ nm →
  identifier (Name field) →
  Forall (λ f, occurs "." (Name f) = false ∧ Name f ≠ Name field) post →
  ∃ q, structJar vm' !! nm = Some p ∧ structJar vm' !! sub = Some q ∧
    (∀ k e, exprs (deref vm' q) !! k = Some e →
       exprs (deref vm' p) !! (Name field +:+ "." +:+ k) = Some e) ∧
    (∀ k f, fields (deref vm' q) !! k = Some f →
       fields (deref vm' p) !! (Name field +:+ "." +:+ k)
       = Some {| sf := sf f; host := host f;
                 valueGetter := subGetter field ptrDeep <$> valueGetter f |}).
Proof.
  intros Hok Hjar Henv Hreg Hstrip Hsub [Hdot Hat] Hpost.
  pose proof (registerStructLocked_jar_ok _ _ _ _ _ _ Hreg Hok) as Hok'.
  pose proof (registerStructLocked_Done_jar _ _ _ _ _ _ Hreg) as (st & Hst & Hp').
  assert (st = reflect.TStruct nm) as ->.
  { unfold getStructType in Hst. simpl in Hst. by injection Hst. }
  simpl in Hp'.
  destruct fuel as [|fuel]; [done|]. simpl in Hreg.
  unfold getStructType in Hreg. simpl in Hreg.
  rewrite Hjar, Henv in Hreg. simpl in Hreg.
  set (vm0 := setJar nm _ _) in Hreg.
  pose proof (registerFields_Done _ _ _ _ _ _ Hreg) as ->.
  assert (length (heap vm) < length (heap vm0)) as Hp0.
  { subst vm0. simpl. rewrite length_app. simpl. lia. }
  set (p := length (heap vm)) in *.
  assert (jar_ok vm0) as Hok0.
  { eapply (registerStructLocked_jar_ok 1 ∅ (reflect.TStruct nm) vm _ (Done p)); [|done].
    simpl. unfold getStructType. simpl.
    by rewrite Hjar, lookup_empty. }
  apply registerFields_app in Hreg as (vm1 & Hpre & Hrest).
  pose proof (registerFields_extends_but _ _ _ (registerStructLocked_extends fuel env)
                _ _ _ Hpre) as Hext1.
  pose proof (registerFields_jar_ok _ _ _ (registerStructLocked_jar_ok fuel env)
                _ _ _ Hpre Hok0) as Hok1.
  pose proof (extends_but_length _ _ _ Hext1 Hp0) as Hp1.
  simpl in Hrest.
  pose proof (newField_extends_but p field vm1) as Hext2.
  pose proof (jar_ok_newField p field vm1 Hok1) as Hok2.
  pose proof (newField_Done p field vm1) as Hsf.
  destruct (newField p field vm1) as [vm2 [fld|err]]; [|done]. simpl in *.
  specialize (Hsf _ _ eq_refl).
  pose proof (extends_but_length _ _ _ Hext2 Hp1) as Hp2.
  rewrite Hstrip in Hrest. rewrite decide_True in Hrest by done.
  destruct (registerStructLocked fuel env (Typ fld) vm2) as [[vm3 [q|err]]|] eqn:Hsubreg;
    [|done..].
  pose proof (registerStructLocked_extends _ _ _ _ _ _ Hsubreg) as Hext3.
  pose proof (registerStructLocked_jar_ok _ _ _ _ _ _ Hsubreg Hok2) as Hok3.
  pose proof (registerStructLocked_Done_jar _ _ _ _ _ _ Hsubreg) as (st & Hst' & Hq).
  assert (st = reflect.TStruct sub) as ->.
  { unfold getStructType in Hst'. rewrite Hsf, Hstrip in Hst'. simpl in Hst'.
    by injection Hst'. }
  simpl in Hq.
  assert (p < length (heap vm3)) as Hp3 by (destruct Hext3 as (_ & _ & L & _); lia).
  assert (structJar vm3 !! nm = Some p) as Hnm3.
  { destruct Hext1 as (J1 & _), Hext2 as (J2 & _), Hext3 as (J3 & _).
    eapply lookup_weaken; [|exact J3]. eapply lookup_weaken; [|exact J2].
    eapply lookup_weaken; [|exact J1]. subst vm0. simpl. by rewrite lookup_insert_eq. }
  assert (q ≠ p) as Hqp.
  { intros ->. destruct Hok3 as [_ Hinj]. by apply Hsub, (Hinj _ _ _ Hq Hnm3). }
  assert (q < length (heap vm3)) as Hq3 by (destruct Hok3 as [Hlt _]; eauto).
  pose proof (copySubFields_extends_but p fld q ptrDeep vm3) as Hext4.
  pose proof (registerFields_extends_but _ _ _ (registerStructLocked_extends fuel env)
                _ _ _ Hrest) as Hext5.
  pose proof (extends_but_trans _ _ _ _ Hext4 Hext5) as Hext35.
  assert (deref vm' q = deref vm3 q) as Hderef by by apply (extends_but_deref p).
  assert (Name fld = Name field) as Hname by by rewrite Hsf.
  exists q. split; [done|]. split.
  { destruct Hext35 as (J & _). eapply lookup_weaken; [exact Hq|exact J]. }
  destruct (copySubFields_copies p fld q ptrDeep vm3 Hp3) as [Hce Hcf].
  rewrite Hderef. split.
  - intros k e Hk.
    destruct (registerFields_keeps _ p (Name field) k post
                (registerStructLocked_extends fuel env) Hdot Hat Hpost _ _ _ Hrest)
      as [He _].
    { by eapply extends_but_length. }
    rewrite He. rewrite <- Hname. by apply Hce.
  - intros k f Hk.
    destruct (registerFields_keeps _ p (Name field) k post
                (registerStructLocked_extends fuel env) Hdot Hat Hpost _ _ _ Hrest)
      as [_ Hf].
    { by eapply extends_but_length. }
    rewrite Hf. rewrite <- Hname. rewrite (Hcf k f Hk). by rewrite Hsf.
Qed.

End FlattenFacts.

(** The getter of a flattened field behind one pointer: the nested getter
    at the address the pointer holds. *)
Lemma subGetter_one_pointer (field : StructField) (t : reflect.type) (g : Getter)
    (m : Mem) (base a : uintptr) :
  Typ field = reflect.TPtr t →
  uintptr_add base (Offset field) ≠ 0%Z →
  m !! uintptr_add base (Offset field) = Some (reflect.GPtr a) →
  subGetter field 1 g m base = g m a.
Proof.
  intros Ht Hbase Hm. unfold subGetter, reflect.NewAt. simpl.
  rewrite decide_False by done. simpl. rewrite Ht. simpl.
  unfold reflect.load. rewrite Hm. done.
Qed.

(** C8 (as amended).  Let a host struct type that is not in the registry
    be registered, and let one of its fields be of a nested struct type
    [sub] other than the host (behind [ptrDeep] pointers), the field names
    being Go identifiers and no later field having the same name.  Then,
    in the registry as the registration of the host returns it, every
    selector [k] that the descriptor of [sub] has (for a field [Addr]
    and the selector [City@]: [Addr.City@]) is a selector of the host's
    descriptor under the field's name, a dot and [k], bound to the same
    compiled expression; and every field [k] of the nested descriptor that
    has a getter is a field of the host under the dotted name, with the
    getter that [copySubFields] composes: at depth zero
    [outer(base) = inner(base + Offset)], behind one pointer the inner
    getter at the address that the pointer holds. *)
Theorem nested_struct_is_flattened {Expr : Type} {compiler : ExprCompiler Expr}
    (fuel : nat) (env : TypeEnv) (vm vm' : @VM Expr) (nm sub : string) (p : loc)
    (pre post : list StructField) (field : StructField) (ptrDeep : nat) :
  jar_ok vm →
  structJar vm !! nm = None →
  env !! nm = Some (pre ++ field :: post) →
  registerStructLocked fuel env (reflect.TStruct nm) vm = Some (vm', Done p) →
  stripPtr (Typ field) = (reflect.TStruct sub, ptrDeep) →
  sub ≠ nm →
  identifier (Name field) →
  Forall (λ f, occurs "." (Name f) = false ∧ Name f ≠ Name field) post →
  ∃ q, structJar vm' !! nm = Some p ∧ structJar vm' !! sub = Some q ∧
    (∀ k e, exprs (deref vm' q) !! k = Some e →
       exprs (deref vm' p) !! (Name field +:+ "." +:+ k) = Some e) ∧
    (∀ k f g, fields (deref vm' q) !! k = Some f → valueGetter f = Some g →
       ∃ f' g',
         fields (deref vm' p) !! (Name field +:+ "." +:+ k) = Some f' ∧
         valueGetter f' = Some g' ∧
         (ptrDeep = 0 → ∀ m base, g' m base = g m (uintptr_add base (Offset field))) ∧
         (ptrDeep = 1 → ∀ m base a,
            uintptr_add base (Offset field) ≠ 0%Z →
            m !! uintptr_add base (Offset field) = Some (reflect.GPtr a) →
            g' m base = g m a)).
Proof.
  intros Hok Hjar Henv Hreg Hstrip Hsub Hid Hpost.
  destruct (flattening_in_registration fuel env vm nm vm' p pre field post sub ptrDeep)
    as (q & Hp & Hq & Hexprs & Hfields); try done.
  exists q. repeat split; try done.
  intros k f g Hk Hg. apply Hfields in Hk.
  eexists _, (subGetter field ptrDeep g). split; [exact Hk|]. simpl.
  rewrite Hg. split; [done|]. split.
  - by intros ->.
  - intros -> m base a Hbase Hm.
    destruct (Typ field) as [|t| | | | | | |] eqn:Ht; try done.
    by eapply subGetter_one_pointer.
Qed.

Lemma nested_struct_is_flattened_witness :
  ∃ q, structJar (registryOf sampleEnv "main.User") !! "main.User" = Some 0 ∧
    structJar (registryOf sampleEnv "main.User") !! "main.Address" = Some q ∧
    (∀ k e, exprs (deref (registryOf sampleEnv "main.User") q) !! k = Some e →
       exprs (deref (registryOf sampleEnv "main.User") 0) !! ("Addr" +:+ "." +:+ k) = Some e) ∧
    (∀ k f g, fields (deref (registryOf sampleEnv "main.User") q) !! k = Some f →
       valueGetter f = Some g →
       ∃ f' g',
         fields (deref (registryOf sampleEnv "main.User") 0) !! ("Addr" +:+ "." +:+ k)
         = Some f' ∧
         valueGetter f' = Some g' ∧
         (0 = 0 → ∀ m base, g' m base = g m (uintptr_add base 16%Z)) ∧
         (0 = 1 → ∀ m base a,
            uintptr_add base 16%Z ≠ 0%Z →
            m !! uintptr_add base 16%Z = Some (reflect.GPtr a) →
            g' m base = g m a)).
Proof.
  apply (nested_struct_is_flattened 4 sampleEnv (New "te") (registryOf sampleEnv "main.User")
           "main.User" "main.Address" 0
           [ {| Name := "Name"; Typ := tString; Tag := []; Offset := 0%Z |} ] []
           {| Name := "Addr"; Typ := reflect.TStruct "main.Address"; Tag := [];
              Offset := 16%Z |} 0).
  - split; intros *; simpl; by rewrite lookup_empty.
  - reflexivity.
  - reflexivity.
  - apply registered_Done. vm_compute. reflexivity.
  - reflexivity.
  - discriminate.
  - split; reflexivity.
  - constructor.
Defined.

(** C8 (as stated) fails for types that contain themselves.  The struct
    [T] has the field [Next *T]; the descriptor of [T] has the selector
    [Next.A@], and it does not have [Next.Next.A@].  The structs [A] and
    [B] contain each other; after the registration of [B], the descriptor
    of [B] has the selector [A.X@], and the descriptor of [A], whose field
    [B] is of type [*B], does not have [B.A.X@]: [A] was flattened into [B]
    after [B], still under construction, had been flattened into [A]. *)
Lemma nested_struct_claim_fails :
  (structJar (registryOf selfEnv "main.T") !! "main.T" = Some 0 ∧
   exprs (deref (registryOf selfEnv "main.T") 0) !! "Next.A@" = Some "$>0" ∧
   exprs (deref (registryOf selfEnv "main.T") 0) !! "Next.Next.A@" = None ∧
   ¬ (∀ k e, exprs (deref (registryOf selfEnv "main.T") 0) !! k = Some e →
        exprs (deref (registryOf selfEnv "main.T") 0) !! ("Next" +:+ "." +:+ k)
        = Some e)) ∧
  (snd <$> registered mutualEnv "main.B" = Some (Done 0) ∧
   structJar (registryOf mutualEnv "main.B") !! "main.B" = Some 0 ∧
   structJar (registryOf mutualEnv "main.B") !! "main.A" = Some 1 ∧
   exprs (deref (registryOf mutualEnv "main.B") 0) !! "A.X@" = Some "1" ∧
   exprs (deref (registryOf mutualEnv "main.B") 1) !! "B.A.X@" = None ∧
   ¬ (∀ k e, exprs (deref (registryOf mutualEnv "main.B") 0) !! k = Some e →
        exprs (deref (registryOf mutualEnv "main.B") 1) !! ("B" +:+ "." +:+ k)
        = Some e)).
Proof.
  assert (exprs (deref (registryOf selfEnv "main.T") 0) !! "Next.A@" = Some "$>0") as H1
    by by vm_compute.
  assert (exprs (deref (registryOf selfEnv "main.T") 0) !! "Next.Next.A@" = None) as H2
    by by vm_compute.
  assert (exprs (deref (registryOf mutualEnv "main.B") 0) !! "A.X@" = Some "1") as H3
    by by vm_compute.
  assert (exprs (deref (registryOf mutualEnv "main.B") 1) !! "B.A.X@" = None) as H4
    by by vm_compute.
  split.
  - split; [by vm_compute|]. split; [done|]. split; [done|].
    intros Hall. specialize (Hall "Next.A@" "$>0" H1).
    change ("Next" +:+ "." +:+ "Next.A@") with "Next.Next.A@" in Hall. congruence.
  - split; [by vm_compute|]. split; [by vm_compute|]. split; [by vm_compute|].
    split; [done|]. split; [done|].
    intros Hall. specialize (Hall "A.X@" "1" H3).
    change ("B" +:+ "." +:+ "A.X@") with "B.A.X@" in Hall. congruence.
Qed.

(** The descriptors of [A] and [B] after the registration of [B]. *)
Example mutual_reference_descriptors :
  dom (exprs (deref (registryOf mutualEnv "main.B") 0))
  = ({["Y@"; "A.X@"; "A.B.Y@"]} : gset string) ∧
  dom (exprs (deref (registryOf mutualEnv "main.B") 1)) = ({["X@"; "B.Y@"]} : gset string).
Proof. split; apply (bool_decide_unpack _); by vm_compute. Qed.

(** The sample: [User] exposes [Addr.City@] with the expression of [City@],
    and its field [Addr.City] reads the string at [base + 16]. *)
Example User_exposes_Addr_City :
  exprs (descriptorOf sampleEnv "main.User") !! "Addr.City@" = Some "len($)>0" ∧
  selectorList (descriptorOf sampleEnv "main.User") = ["Addr.City@"] ∧
  getValue basicConvert (descriptorOf sampleEnv "main.User")
    {[ 4096%Z := reflect.GString "Ann"; 4112%Z := reflect.GString "Rome" ]}
    at4096 "Addr.City" []
  = reflect.Ret (Some (tString, reflect.GString "Rome")).
Proof. repeat split; by vm_compute. Qed.

(** ** Faults of the getters and of the resolver *)

(** C2 (the code departs from it).  [Items], [Host] and [Deep] are
    registered without error.  [Items.P] is a nil [*[]int]: its getter calls
    [Interface()] on the zero Value and panics.  [Host.Addr] is a nil
    [*Address]: the getter of the flattened field [Addr.City] hands the
    address 0 to the getter of [City], which reads it.  [Deep.N] is a nil
    [**int]: [newFrom] calls [Elem()] on the zero Value.  With the inner
    pointer of [Deep.N] nil and the outer one set, the getter returns nil. *)
Theorem nil_pointer_getters_panic :
  snd <$> registered sampleEnv "main.Items" = Some (Done 0) ∧
  snd <$> registered sampleEnv "main.Host" = Some (Done 0) ∧
  snd <$> registered sampleEnv "main.Deep" = Some (Done 0) ∧
  getValue basicConvert (descriptorOf sampleEnv "main.Items") itemsMem at4096 "P" []
  = reflect.Panics (reflect.ValueError "reflect.Value.Interface" reflect.Invalid) ∧
  getValue basicConvert (descriptorOf sampleEnv "main.Host") nilAt4096 at4096 "Addr.City" []
  = reflect.Panics (reflect.InvalidAddress 0%Z) ∧
  getValue basicConvert (descriptorOf sampleEnv "main.Deep") nilAt4096 at4096 "N" []
  = reflect.Panics (reflect.ValueError "reflect.Value.Elem" reflect.Invalid) ∧
  getValue basicConvert (descriptorOf sampleEnv "main.Deep")
    {[ 4096%Z := reflect.GPtr 5000%Z; 5000%Z := reflect.GPtr 0%Z ]} at4096 "N" []
  = reflect.Ret None.
Proof. repeat split; by vm_compute. Qed.

(** C3 (the code departs from it).  [Items.Xs] is [[]int{1, 2, 3}].  The
    subscript 5 gives nil; the subscript -1 passes the test
    [idx >= vv.Len()] and [vv.Index(-1)] panics. *)
Theorem negative_subscript_panics :
  getValue basicConvert (descriptorOf sampleEnv "main.Items") itemsMem at4096 "Xs" [five]
  = reflect.Ret None ∧
  getValue basicConvert (descriptorOf sampleEnv "main.Items") itemsMem at4096 "Xs" [minusOne]
  = reflect.Panics (reflect.IndexOutOfRange (-1)%Z 3).
Proof. split; by vm_compute. Qed.

(** C4 (the code departs from it).  [Items.M] is [map[string]int{"a": 1}].
    The subscript 5, a [float64] that does not convert to [string], gives
    nil, and so does the absent key ["b"] when another subscript follows.
    As the last subscript, the absent key leaves the zero Value of
    [MapIndex] to the final [switch], whose default case calls [IsNil()] on
    it and panics. *)
Theorem absent_key_panics :
  getValue basicConvert (descriptorOf sampleEnv "main.Items") itemsMem at4096 "M" [five]
  = reflect.Ret None ∧
  getValue basicConvert (descriptorOf sampleEnv "main.Items") itemsMem at4096 "M"
    [keyB; five]
  = reflect.Ret None ∧
  getValue basicConvert (descriptorOf sampleEnv "main.Items") itemsMem at4096 "M" [keyB]
  = reflect.Panics (reflect.ValueError "reflect.Value.IsNil" reflect.Invalid).
Proof. repeat split; by vm_compute. Qed.

(** ** The annotation parser *)

(** *** Text *)

Lemma app_nil_r s : s +:+ "" = s.
Proof. induction s as [|c s IH]; [done|]. by rewrite app_cons, IH. Qed.

Lemma app_assoc' s t u : (s +:+ t) +:+ u = s +:+ t +:+ u.
Proof. induction s as [|c s IH]; [done|]. by rewrite !app_cons, IH. Qed.

Lemma length_app' s t : String.length (s +:+ t) = String.length s + String.length t.
Proof. induction s as [|c s IH]; [done|]. rewrite app_cons. simpl. by rewrite IH. Qed.






Lemma occurs_cons_false c c' s : occurs c (String c' s) = false → c' ≠ c ∧ occurs c s = false.
Proof.
  simpl. intros [H1 H2]%orb_false_iff. split; [|done].
  by apply bool_decide_eq_false in H1.
Qed.



Lemma occurs_app c s t : occurs c (s +:+ t) = occurs c s || occurs c t.
Proof.
  induction s as [|c' s IH]; [done|]. rewrite app_cons. simpl.
  by rewrite IH, orb_assoc.
Qed.

Lemma prefix_nil s : String.prefix "" s = true.
Proof. by destruct s. Qed.














(** *** One turn of the loop on a well-formed group *)

Section ParseFacts.
Context {Expr : Type} {compiler : ExprCompiler Expr}.
Implicit Types (d : @Struct Expr) (g : string * string) (gs : list (string * string)).





End ParseFacts.

Section DuplicateFacts.
Context {Expr : Type} {compiler : ExprCompiler Expr}.
Implicit Types (vm : @VM Expr) (d : @Struct Expr) (gs : list (string * string)).





End DuplicateFacts.



(** The sample [Twice], whose field has the annotation [{@:$>0}{@:$<9}], is
    not registered: the second [@] is a duplicate of [X@]. *)
Example Twice_is_rejected :
  snd <$> registered sampleEnv "main.Twice" = Some (Fail (ErrDuplicateExprName "X@")).
Proof. by vm_compute. Qed.


(** ** Flattening a struct into itself *)

(** A longest selector of a descriptor has no dotted copy in it: no
    descriptor with an expression has, for each selector [k], the selector
    [ns.k] as well.  So a struct that contains itself never exposes all of
    its own selectors once more under the field, in whatever order and
    however often the [range] of [copySubFields] produces the entries. *)
Lemma longest_key {A : Type} (l : list (string * A)) :
  l ≠ [] → ∃ x, x ∈ l ∧ ∀ y, y ∈ l → String.length y.1 ≤ String.length x.1.
Proof.
  induction l as [|x l IH]; [done|]. intros _. destruct l as [|x' l'].
  - exists x. split; [left|]. intros y ->%list_elem_of_singleton. done.
  - destruct IH as (z & Hz & Hmax); [done|].
    destruct (decide (String.length z.1 ≤ String.length x.1)).
    + exists x. split; [left|]. intros y [->|Hy]%elem_of_cons; [done|].
      specialize (Hmax y Hy). lia.
    + exists z. split; [by right|]. intros y [->|Hy]%elem_of_cons; [lia|auto].
Qed.

Lemma flattening_is_never_closed {Expr : Type} (d : @Struct Expr) (ns : string) :
  exprs d ≠ ∅ →
  ∃ k e, exprs d !! k = Some e ∧ exprs d !! (ns +:+ "." +:+ k) = None.
Proof.
  intros Hne. destruct (longest_key (map_to_list (exprs d))) as ([k e] & Hin & Hmax).
  { intros Hnil. by apply map_to_list_empty_iff in Hnil. }
  apply elem_of_map_to_list in Hin. exists k, e. split; [done|].
  destruct (exprs d !! (ns +:+ "." +:+ k)) as [e'|] eqn:Hl; [|done].
  apply elem_of_map_to_list in Hl. apply Hmax in Hl. simpl in Hl.
  rewrite !length_app' in Hl. simpl in Hl. lia.
Qed.

(** * Further properties of the registry *)

(** X1.  A registration, whatever it returns, keeps every entry of the
    registry, keeps the tag name, and leaves every descriptor that existed
    before the call as it was: it writes only to descriptors that it
    creates. *)
Theorem registration_only_adds {Expr : Type} {compiler : ExprCompiler Expr}
    (fuel : nat) (env : TypeEnv) (structType : reflect.type) (vm vm' : @VM Expr)
    (r : result loc) :
  registerStructLocked fuel env structType vm = Some (vm', r) →
  (∀ k q, structJar vm !! k = Some q → structJar vm' !! k = Some q) ∧
  tagName vm' = tagName vm ∧
  (∀ q, q < length (heap vm) → heap vm' !! q = heap vm !! q).
Proof.
  intros H. apply registerStructLocked_extends in H as (J & T & _ & Hh).
  split; [|done]. intros k q Hk. by eapply lookup_weaken.
Qed.

Lemma registration_only_adds_witness :
  (∀ k q, structJar (New (Expr:=string) "te") !! k = Some q →
          structJar (registryOf sampleEnv "main.User") !! k = Some q) ∧
  tagName (registryOf sampleEnv "main.User") = tagName (New (Expr:=string) "te") ∧
  (∀ q, q < length (heap (New (Expr:=string) "te")) →
        heap (registryOf sampleEnv "main.User") !! q = heap (New (Expr:=string) "te") !! q).
Proof.
  apply (registration_only_adds 4 sampleEnv (reflect.TStruct "main.User") (New "te")
           (registryOf sampleEnv "main.User") (Done 0)).
  apply registered_Done. vm_compute. reflexivity.
Defined.

(** X2.  In a registry that registrations build from [New], every entry
    points to an existing descriptor and two type names never share one:
    the property holds for [New] and every registration keeps it. *)
Theorem registry_entries_are_distinct {Expr : Type} {compiler : ExprCompiler Expr}
    (tag : string) :
  jar_ok (New (Expr:=Expr) tag) ∧
  ∀ fuel env structType (vm vm' : @VM Expr) r,
    jar_ok vm →
    registerStructLocked fuel env structType vm = Some (vm', r) →
    jar_ok vm'.
Proof.
  split; [apply jar_ok_New|].
  intros fuel env structType vm vm' r Hok H. by eapply registerStructLocked_jar_ok.
Qed.

Lemma registry_entries_are_distinct_witness :
  jar_ok (registryOf sampleEnv "main.User").
Proof.
  apply (proj2 (registry_entries_are_distinct "te") 4 sampleEnv
           (reflect.TStruct "main.User") (New "te") (registryOf sampleEnv "main.User")
           (Done 0)).
  - split; intros *; simpl; by rewrite lookup_empty.
  - apply registered_Done. vm_compute. reflexivity.
Defined.

Section FailedFacts.
Context {Expr : Type} {compiler : ExprCompiler Expr}.
Implicit Types (vm : @VM Expr).

Lemma registerStructLocked_enters fuel env nm vm vm' r :
  registerStructLocked fuel env (reflect.TStruct nm) vm = Some (vm', r) →
  is_Some (structJar vm' !! nm).
Proof.
  destruct fuel as [|fuel]; [done|]. simpl. unfold getStructType. simpl.
  destruct (structJar vm !! nm) as [s0|] eqn:Hjar.
  { intros [= <- _]. rewrite Hjar. eauto. }
  intros H. apply registerFields_extends_but in H as (J & _);
    [|apply registerStructLocked_extends].
  eapply lookup_weaken_is_Some; [|exact J]. simpl. rewrite lookup_insert_eq. eauto.
Qed.

End FailedFacts.

(** X3.  A registration that fails is not rolled back.  When
    [registerStructLocked] on a struct type returns, with a descriptor or
    with an error, the type is in the registry; so every later registration
    of the type, with any compiler and declarations, returns the descriptor
    that is there (complete or not) and no error, and so does [Run] on a
    pointer to such a struct. *)
Theorem failed_registration_stays_cached {Expr : Type}
    (compiler compiler' : ExprCompiler Expr) (fuel : nat) (env : TypeEnv) (nm : string)
    (vm vm' : @VM Expr) (r : result loc) :
  registerStructLocked (compiler:=compiler) fuel env (reflect.TStruct nm) vm
  = Some (vm', r) →
  ∃ p, structJar vm' !! nm = Some p ∧
    (∀ fuel' env',
       registerStructLocked (compiler:=compiler') (S fuel') env' (reflect.TStruct nm) vm'
       = Some (vm', Done p)) ∧
    (∀ fuel' env' a, a ≠ 0%Z →
       Run (compiler:=compiler') fuel' env'
         (Some (reflect.TPtr (reflect.TStruct nm), reflect.GPtr a)) vm'
       = Some (vm', reflect.Ret (Done {| s := p; ptr := a |}))).
Proof.
  intros H. destruct (registerStructLocked_enters _ _ _ _ _ _ H) as [p Hp].
  exists p. split; [done|]. split.
  - intros fuel' env'. simpl. unfold getStructType. simpl. by rewrite Hp.
  - intros fuel' env' a Ha. unfold Run. simpl. rewrite decide_False by done. simpl.
    by rewrite Hp.
Qed.

Lemma failed_registration_stays_cached_witness :
  ∃ p, structJar (registryOf sampleEnv "main.Bad") !! "main.Bad" = Some p ∧
    (∀ fuel' env',
       registerStructLocked (compiler:=rejectAll) (S fuel') env' (reflect.TStruct "main.Bad")
         (registryOf sampleEnv "main.Bad")
       = Some (registryOf sampleEnv "main.Bad", Done p)) ∧
    (∀ fuel' env' a, a ≠ 0%Z →
       Run (compiler:=rejectAll) fuel' env'
         (Some (reflect.TPtr (reflect.TStruct "main.Bad"), reflect.GPtr a))
         (registryOf sampleEnv "main.Bad")
       = Some (registryOf sampleEnv "main.Bad", reflect.Ret (Done {| s := p; ptr := a |}))).
Proof.
  apply (failed_registration_stays_cached toyCompiler rejectAll 4 sampleEnv "main.Bad"
           (New "te") (registryOf sampleEnv "main.Bad") (Fail (ErrSyntax "{"))).
  assert (snd <$> registered sampleEnv "main.Bad" = Some (Fail (ErrSyntax "{"))) as H
    by (vm_compute; reflexivity).
  unfold registryOf. unfold registered in *.
  destruct (registerStructLocked 4 sampleEnv (reflect.TStruct "main.Bad") (New "te"))
    as [[vm r]|]; simpl in H; [|discriminate H].
  injection H as ->. reflexivity.
Defined.

Section StructTypeFacts.

Lemma stripPtr_shape t : t = pointers (stripPtr t).2 (stripPtr t).1.
Proof.
  induction t; simpl; try done.
  destruct (stripPtr t) as [t' n]. simpl in *. by rewrite <- IHt.
Qed.

End StructTypeFacts.

(** X4.  [getStructType] accepts exactly the struct types behind any number
    of pointers, and returns the struct type with the pointers removed;
    every other type gets the not-a-structure error that names the type as
    it was given. *)
Theorem getStructType_accepts_pointers_to_structs (t : reflect.type) :
  (∀ st, getStructType t = Done st ↔
         ∃ n nm, t = pointers n (reflect.TStruct nm) ∧ st = reflect.TStruct nm) ∧
  (∀ err, getStructType t = Fail err →
          err = ErrNotStruct t ∧ ∀ n nm, t ≠ pointers n (reflect.TStruct nm)).
Proof.
  split.
  - intros st. split.
    + unfold getStructType. case_decide as Hk; [|done]. intros [= <-].
      exists (stripPtr t).2. destruct (stripPtr t).1 as [| | | | | | | |nm] eqn:Hst;
        try done; [by destruct b|].
      exists nm. split; [|done]. rewrite <- Hst. apply stripPtr_shape.
    + intros (n & nm & -> & ->). unfold getStructType.
      by rewrite stripPtr_pointers.
  - intros err. unfold getStructType. case_decide as Hk; [done|]. intros [= <-].
    split; [done|]. intros n nm ->. apply Hk. by rewrite stripPtr_pointers.
Qed.

Lemma getStructType_accepts_pointers_to_structs_witness :
  getStructType (pointers 2 (reflect.TStruct "main.User")) = Done (reflect.TStruct "main.User").
Proof.
  apply (proj1 (getStructType_accepts_pointers_to_structs
                  (pointers 2 (reflect.TStruct "main.User")))).
  exists 2, "main.User". split; reflexivity.
Defined.

(** ** Selectors and expressions stay in step *)

Section BoundFacts.
Context {Expr : Type} {compiler : ExprCompiler Expr}.
Implicit Types (vm : @VM Expr) (d : @Struct Expr) (p q : loc).

Lemma selectors_bound_empty : selectors_bound (emptyStruct (Expr:=Expr)).
Proof. intros sel Hsel. by apply elem_of_nil in Hsel. Qed.

Lemma selectors_bound_addExpr selector expr d :
  selectors_bound d → selectors_bound (addExpr selector expr d).
Proof.
  intros Hd sel. simpl. rewrite elem_of_app, list_elem_of_singleton.
  intros [Hsel| ->].
  - destruct (decide (selector = sel)) as [->|Hne].
    + rewrite lookup_insert_eq. eauto.
    + rewrite lookup_insert_ne by done. by apply Hd.
  - rewrite lookup_insert_eq. eauto.
Qed.

Lemma selectors_bound_setField key f d :
  selectors_bound d → selectors_bound (setField key f d).
Proof. done. Qed.

Lemma selectors_bound_parseExprsLoop fuel fname raw :
  ∀ tag d d' err,
    parseExprsLoop fuel fname raw tag d = Some (d', err) →
    selectors_bound d → selectors_bound d'.
Proof.
  induction fuel as [|fuel IH]; intros tag d d' err; simpl; [done|].
  destruct (readPairedSymbol tag "{" "}") as [[subtag tag']|]; [|by intros [= <- _]].
  destruct (strings_Index subtag ":") as [[|i]|]; try by intros [= <- _].
  case_decide; [apply IH|].
  destruct (exprs d !! _); [by intros [= <- _]|].
  case_decide; [by intros [= <- _]|].
  destruct (parseExpr _) as [expr|e]; [|by intros [= <- _]].
  case_decide.
  - intros [= <- _] Hd. by apply selectors_bound_addExpr.
  - intros Hloop Hd. eapply IH; [exact Hloop|]. by apply selectors_bound_addExpr.
Qed.

Lemma selectors_bound_parseExprs fname tag d :
  selectors_bound d → selectors_bound (parseExprs fname tag d).1.
Proof.
  intros Hd. unfold parseExprs. case_decide; [done|].
  assert (selectors_bound
            (match parseExpr (TrimSpace tag) with
             | Done expr => (addExpr (fname +:+ "@") expr d, None)
             | Fail err => (d, Some err)
             end).1) as Hplain.
  { destruct (parseExpr (TrimSpace tag)); simpl; [|done]. by apply selectors_bound_addExpr. }
  destruct (TrimSpace tag) as [|c rest] eqn:Htag; [done|].
  destruct c as [[] [] [] [] [] [] [] []]; try exact Hplain.
  destruct (parseExprsLoop _ _ _ _ _) as [[d' err]|] eqn:Hloop; [|done].
  by eapply selectors_bound_parseExprsLoop.
Qed.

Lemma all_bound_deref vm p : all_bound vm → selectors_bound (deref vm p).
Proof.
  intros Hvm. unfold deref. destruct (heap vm !! p) as [d|] eqn:Hp; simpl.
  - by eapply Hvm.
  - apply selectors_bound_empty.
Qed.

Lemma all_bound_store p d vm : all_bound vm → selectors_bound d → all_bound (store p d vm).
Proof.
  intros Hvm Hd q d'. simpl. intros Hq.
  apply list_lookup_insert_Some in Hq as [(-> & <- & _)|[_ Hq]]; [done|]. by eapply Hvm.
Qed.

Lemma all_bound_newField p structField vm :
  all_bound vm → all_bound (newField p structField vm).1.
Proof.
  intros Hvm. unfold newField.
  pose proof (selectors_bound_parseExprs (Name structField)
                (StructTag_Get (Tag structField) (tagName vm)) (deref vm p)
                (all_bound_deref vm p Hvm)) as Hd.
  destruct (parseExprs _ _ _) as [d [err|]]; simpl in *; by apply all_bound_store.
Qed.

Lemma all_bound_installGetter p field t ptrDeep vm :
  all_bound vm → all_bound (installGetter p field t ptrDeep vm).
Proof.
  intros Hvm.
  assert (∀ g, all_bound (setGetter p field g vm)) as Hset.
  { intros g. apply all_bound_store; [done|]. apply selectors_bound_setField.
    by apply all_bound_deref. }
  unfold installGetter. destruct (reflect.isNumeric _); [apply Hset|].
  destruct (reflect.Type_Kind t); apply Hset.
Qed.

Lemma selectors_bound_copyField field ptrDeep (l : list (string * Field)) :
  ∀ d, selectors_bound d → selectors_bound (foldl (copyField field ptrDeep) d l).
Proof. induction l as [|[k f] l IH]; intros d Hd; simpl; [done|]. by apply IH. Qed.

Lemma selectors_bound_copyExpr field (l : list (string * Expr)) :
  ∀ d, selectors_bound d → selectors_bound (foldl (copyExpr field) d l).
Proof.
  induction l as [|[k e] l IH]; intros d Hd; simpl; [done|].
  apply IH. by apply selectors_bound_addExpr.
Qed.

Lemma all_bound_copySubFields p field q ptrDeep vm :
  all_bound vm → all_bound (copySubFields p field q ptrDeep vm).
Proof.
  intros Hvm. unfold copySubFields.
  assert (all_bound (store p (foldl (copyField field ptrDeep) (deref vm p)
                                (map_to_list (fields (deref vm q)))) vm)) as Hvm1.
  { apply all_bound_store; [done|]. apply selectors_bound_copyField.
    by apply all_bound_deref. }
  apply all_bound_store; [done|]. apply selectors_bound_copyExpr. by apply all_bound_deref.
Qed.

Lemma all_bound_registerFields register p structFields :
  (∀ t vm vm' r, register t vm = Some (vm', r) → all_bound vm → all_bound vm') →
  ∀ vm vm' r, registerFields register p structFields vm = Some (vm', r) →
    all_bound vm → all_bound vm'.
Proof.
  intros Hreg. induction structFields as [|structField rest IH]; intros vm vm' r; simpl.
  { by intros [= <- _]. }
  pose proof (all_bound_newField p structField vm) as Hnew.
  destruct (newField p structField vm) as [vm1 [field|err]]; simpl in Hnew;
    [|intros [= <- _]; done].
  destruct (stripPtr (Typ structField)) as [t ptrDeep].
  case_decide.
  - destruct (register (Typ field) vm1) as [[vm2 [sub|err]]|] eqn:Hr; [| |done].
    + intros Hrest Hok. eapply IH; [exact Hrest|]. apply all_bound_copySubFields. eauto.
    + intros [= <- _] Hok. eauto.
  - intros Hrest Hok. eapply IH; [exact Hrest|]. apply all_bound_installGetter. auto.
Qed.

Lemma all_bound_registerStructLocked fuel env :
  ∀ structType vm vm' r,
    registerStructLocked fuel env structType vm = Some (vm', r) →
    all_bound vm → all_bound vm'.
Proof.
  induction fuel as [|fuel IH]; intros structType vm vm' r; simpl; [done|].
  destruct (getStructType structType) as [st|err]; [|by intros [= <- _]].
  destruct (structJar vm !! Type_String st) as [s0|] eqn:Hjar; [by intros [= <- _]|].
  intros Hfields Hvm.
  eapply (all_bound_registerFields _ _ _ IH); [exact Hfields|].
  intros q d. simpl. intros Hq.
  apply lookup_app_Some in Hq as [Hq|[_ Hq]]; [by eapply Hvm|].
  apply list_lookup_singleton_Some in Hq as [_ <-]. apply selectors_bound_empty.
Qed.

End BoundFacts.

(** X5.  In every descriptor of a registry that registrations build from
    [New], each selector of [selectorList] is a key of [exprs]: the two are
    written together by [parseExprs] and [copySubFields] and nothing removes
    an expression.  So the closure that [Range] hands to its callback never
    calls [run] on a missing expression, and does what [Eval] does for the
    selector. *)
Theorem selectors_have_expressions {Expr W : Type} {compiler : ExprCompiler Expr}
    (run : Expr → string → TagExpr → W → W * reflect.outcome reflect.iface)
    (tag : string) :
  all_bound (New (Expr:=Expr) tag) ∧
  ∀ fuel env structType (vm vm' : @VM Expr) r,
    all_bound vm →
    registerStructLocked fuel env structType vm = Some (vm', r) →
    all_bound vm' ∧
    ∀ q d t selector w,
      heap vm' !! q = Some d → selector ∈ selectorList d →
      is_Some (exprs d !! selector) ∧
      evalThunk run (exprs d) t selector w = Eval run d t selector w.
Proof.
  split; [intros q d Hq; simpl in Hq; by rewrite lookup_nil in Hq|].
  intros fuel env structType vm vm' r Hvm Hreg.
  pose proof (all_bound_registerStructLocked _ _ _ _ _ _ Hreg Hvm) as Hvm'.
  split; [done|]. intros q d t selector w Hq Hsel.
  destruct (Hvm' q d Hq selector Hsel) as [e He]. split; [eauto|].
  unfold evalThunk, Eval. by rewrite He.
Qed.

Lemma selectors_have_expressions_witness :
  all_bound (registryOf sampleEnv "main.User").
Proof.
  apply (proj2 (selectors_have_expressions toyRun "te") 4 sampleEnv
           (reflect.TStruct "main.User") (New "te") (registryOf sampleEnv "main.User")
           (Done 0)).
  - intros q d Hq. simpl in Hq. by rewrite lookup_nil in Hq.
  - apply registered_Done. vm_compute. reflexivity.
Defined.

(** ** More on the annotation parser *)

Section ParserExtra.
Context {Expr : Type} {compiler : ExprCompiler Expr}.
Implicit Types (d : @Struct Expr) (g : string * string) (gs : list (string * string)).


Lemma scanPaired_shorter left right :
  ∀ txt depth acc sub rest,
    scanPaired left right depth acc txt = Some (sub, rest) →
    String.length rest < String.length txt.
Proof.
  induction txt as [|c txt IH]; intros depth acc sub rest; simpl; [done|].
  case_decide.
  - destruct depth as [|depth]; [intros [= _ <-]; lia|]. intros H'%IH. lia.
  - case_decide; intros H'%IH; lia.
Qed.

Lemma readPairedSymbol_shorter tag left right sub rest :
  readPairedSymbol tag left right = Some (sub, rest) →
  String.length rest < String.length tag.
Proof.
  destruct tag as [|c txt]; simpl; [done|]. case_decide; [|done].
  intros H'%scanPaired_shorter. lia.
Qed.

Lemma TrimLeft_length txt : String.length (TrimLeft txt) ≤ String.length txt.
Proof.
  induction txt as [|c txt IH]; simpl; [done|]. destruct (Ascii.is_space c); simpl; lia.
Qed.

Lemma parseExprsLoop_fuel fname raw :
  ∀ fuel tag d,
    String.length tag < fuel → is_Some (parseExprsLoop fuel fname raw tag d).
Proof.
  induction fuel as [|fuel IH]; intros tag d Hfuel; [lia|]. simpl.
  destruct (readPairedSymbol tag "{" "}") as [[subtag tag']|] eqn:Hread; [|eauto].
  apply readPairedSymbol_shorter in Hread.
  destruct (strings_Index subtag ":") as [[|i]|]; try eauto.
  case_decide; [apply IH; lia|].
  destruct (exprs d !! _); [eauto|].
  case_decide; [eauto|].
  destruct (parseExpr _) as [expr|e]; [|eauto].
  case_decide; [eauto|]. apply IH.
  pose proof (TrimLeft_length tag'). unfold trimLeftSpace. lia.
Qed.

End ParserExtra.



(** X7.  The loop of [parseExprs] ends: a turn that does not return has
    taken a group off the text that is left, so on any annotation the loop
    returns within as many turns as the annotation has characters, and
    [parseExprs] never needs the turn after. *)
Theorem parseExprs_loop_ends {Expr : Type} {compiler : ExprCompiler Expr}
    (fname raw tag : string) (d : @Struct Expr) (fuel : nat) :
  String.length tag < fuel →
  ∃ d' err, parseExprsLoop fuel fname raw tag d = Some (d', err).
Proof.
  intros Hfuel. destruct (parseExprsLoop_fuel fname raw fuel tag d Hfuel) as [[d' err] H].
  eauto.
Qed.

Lemma parseExprs_loop_ends_witness :
  ∃ d' err, parseExprsLoop (compiler:=toyCompiler) 10 "F" "{ :1}{a:2" "{ :1}{a:2" emptyStruct
            = Some (d', err).
Proof. apply parseExprs_loop_ends. vm_compute. lia. Defined.

(** * Further properties of the getters *)

Section ChainFacts.
Implicit Types (m : Mem) (f : StructField).

Lemma pointers_S n t : pointers (S n) t = reflect.TPtr (pointers n t).
Proof. done. Qed.

Lemma pointers_inner n t : pointers n (reflect.TPtr t) = pointers (S n) t.
Proof. induction n as [|n IH]; [done|]. by rewrite pointers_S, IH. Qed.

Lemma ElemTimes_S m n v :
  ElemTimes m (S n) v = (v' ← reflect.Value_Elem m v; ElemTimes m n v').
Proof. done. Qed.

Lemma bind_Ret {A B} (x : A) (k : A → reflect.outcome B) : (reflect.Ret x ≫= k) = k x.
Proof. done. Qed.

Lemma Value_Elem_At m t a a' :
  m !! a = Some (reflect.GPtr a') → a' ≠ 0%Z →
  reflect.Value_Elem m (reflect.V (reflect.TPtr t) (reflect.At a))
  = reflect.Ret (reflect.V t (reflect.At a')).
Proof.
  intros Ha Hnil. unfold reflect.Value_Elem, reflect.fetch, reflect.load. rewrite Ha.
  rewrite bind_Ret. by rewrite decide_False.
Qed.

Lemma Value_Elem_At_nil m t a :
  m !! a = Some (reflect.GPtr 0%Z) →
  reflect.Value_Elem m (reflect.V (reflect.TPtr t) (reflect.At a)) = reflect.Ret reflect.VZero.
Proof.
  intros Ha. unfold reflect.Value_Elem, reflect.fetch, reflect.load. rewrite Ha.
  rewrite bind_Ret. by rewrite decide_True.
Qed.

Lemma ElemTimes_chain m t a n b :
  chain m a n b →
  ElemTimes m n (reflect.V (pointers n t) (reflect.At a)) = reflect.Ret (reflect.V t (reflect.At b)).
Proof.
  induction 1 as [a|a a' n b Ha Hnil Hchain IH]; [done|].
  rewrite pointers_S, ElemTimes_S, (Value_Elem_At _ _ _ a') by done.
  by rewrite bind_Ret.
Qed.

Lemma ElemTimes_nil_last m t a n b :
  chain m a n b → m !! b = Some (reflect.GPtr 0%Z) →
  ElemTimes m (S n) (reflect.V (pointers (S n) t) (reflect.At a)) = reflect.Ret reflect.VZero.
Proof.
  induction 1 as [a|a a' n b Ha Hnil Hchain IH]; intros Hb.
  - rewrite pointers_S, ElemTimes_S, Value_Elem_At_nil by done. done.
  - rewrite pointers_S, ElemTimes_S, (Value_Elem_At _ _ _ a') by done.
    rewrite bind_Ret. by apply IH.
Qed.

Lemma ElemTimes_nil_early m t a j k b :
  chain m a j b → m !! b = Some (reflect.GPtr 0%Z) →
  ElemTimes m (j + S (S k)) (reflect.V (pointers (j + S (S k)) t) (reflect.At a))
  = reflect.Panics (reflect.ValueError "reflect.Value.Elem" reflect.Invalid).
Proof.
  induction 1 as [a|a a' n b Ha Hnil Hchain IH]; intros Hb.
  - simpl Nat.add. rewrite pointers_S, ElemTimes_S, Value_Elem_At_nil by done. done.
  - simpl Nat.add. rewrite pointers_S, ElemTimes_S, (Value_Elem_At _ _ _ a') by done.
    rewrite bind_Ret. by apply IH.
Qed.

Lemma newFrom_At m f base n :
  uintptr_add base (Offset f) ≠ 0%Z →
  newFrom m f base n
  = ElemTimes m n (reflect.V (Typ f) (reflect.At (uintptr_add base (Offset f)))).
Proof. intros Ha. unfold newFrom, reflect.NewAt. simpl. by rewrite decide_False. Qed.

End ChainFacts.

(** X8.  What the getters of a field behind pointers return, for a field of
    type [t] behind [n+1] pointers at an address that is not zero.  When
    every pointer of the chain is set, the getters read the value at the
    end of the chain.  When the last pointer is nil, the number, boolean
    and string getters return nil, and the getter of a container panics in
    [Interface()].  When an earlier pointer is nil, [newFrom] calls
    [Elem()] on the zero Value and every getter panics. *)
Theorem getters_follow_pointers (f : StructField) (t : reflect.type) (n : nat)
    (kind : reflect.Kind) (m : Mem) (base : uintptr) :
  Typ f = pointers (S n) t →
  uintptr_add base (Offset f) ≠ 0%Z →
  (∀ b, chain m (uintptr_add base (Offset f)) (S n) b →
     floatGetter f kind (S n) m base = getFloat64 m kind b ∧
     boolGetter f (S n) m base
     = (x ← reflect.Value_Bool m (reflect.V t (reflect.At b));
        reflect.Ret (Some (reflect.TBasic reflect.BBool, reflect.GBool x))) ∧
     stringGetter f (S n) m base
     = (x ← reflect.Value_String m (reflect.V t (reflect.At b));
        reflect.Ret (Some (reflect.TBasic reflect.BString, reflect.GString x))) ∧
     lengthGetter f (S n) m base = reflect.Value_Interface m (reflect.V t (reflect.At b))) ∧
  (∀ b, chain m (uintptr_add base (Offset f)) n b → m !! b = Some (reflect.GPtr 0%Z) →
     floatGetter f kind (S n) m base = reflect.Ret None ∧
     boolGetter f (S n) m base = reflect.Ret None ∧
     stringGetter f (S n) m base = reflect.Ret None ∧
     lengthGetter f (S n) m base
     = reflect.Panics (reflect.ValueError "reflect.Value.Interface" reflect.Invalid)) ∧
  (∀ j k b, n = j + S k →
     chain m (uintptr_add base (Offset f)) j b → m !! b = Some (reflect.GPtr 0%Z) →
     let p := reflect.Panics (reflect.ValueError "reflect.Value.Elem" reflect.Invalid) in
     floatGetter f kind (S n) m base = p ∧ boolGetter f (S n) m base = p ∧
     stringGetter f (S n) m base = p ∧ lengthGetter f (S n) m base = p).
Proof.
  intros Ht Ha. split; [|split].
  - intros b Hchain.
    assert (newFrom m f base (S n) = reflect.Ret (reflect.V t (reflect.At b))) as Hnew.
    { rewrite newFrom_At, Ht by done. by apply ElemTimes_chain. }
    unfold floatGetter, boolGetter, stringGetter, lengthGetter. rewrite Hnew. done.
  - intros b Hchain Hb.
    assert (newFrom m f base (S n) = reflect.Ret reflect.VZero) as Hnew.
    { rewrite newFrom_At, Ht by done. by eapply ElemTimes_nil_last. }
    unfold floatGetter, boolGetter, stringGetter, lengthGetter. rewrite Hnew. done.
  - intros j k b -> Hchain Hb.
    assert (newFrom m f base (S (j + S k))
            = reflect.Panics (reflect.ValueError "reflect.Value.Elem" reflect.Invalid))
      as Hnew.
    { rewrite newFrom_At, Ht by done.
      replace (S (j + S k)) with (j + S (S k)) by lia. by eapply ElemTimes_nil_early. }
    unfold floatGetter, boolGetter, stringGetter, lengthGetter. rewrite Hnew. done.
Qed.

Lemma getters_follow_pointers_witness :
  floatGetter {| Name := "N"; Typ := reflect.TPtr (reflect.TPtr tInt); Tag := [];
                 Offset := 0%Z |} reflect.Int 2
    {[ 4096%Z := reflect.GPtr 5000%Z; 5000%Z := reflect.GPtr 6000%Z;
       6000%Z := reflect.GInt 7%Z ]} 4096%Z
  = getFloat64 {[ 4096%Z := reflect.GPtr 5000%Z; 5000%Z := reflect.GPtr 6000%Z;
                  6000%Z := reflect.GInt 7%Z ]} reflect.Int 6000%Z.
Proof.
  apply (getters_follow_pointers
           {| Name := "N"; Typ := reflect.TPtr (reflect.TPtr tInt); Tag := [];
              Offset := 0%Z |} tInt 1 reflect.Int).
  - reflexivity.
  - vm_compute. discriminate.
  - apply (chain_step _ _ 5000%Z); [reflexivity|discriminate|].
    apply (chain_step _ _ 6000%Z); [reflexivity|discriminate|].
    apply chain_here.
Defined.

(** * Further properties of the resolver *)

Section SubscriptFacts.
Context {Expr : Type}.
Variable Value_Convert : Mem → reflect.Value → reflect.type → reflect.outcome reflect.Value.
Implicit Types (d : @Struct Expr) (m : Mem) (t : TagExpr).

Lemma getValue_root d m t field f getter v k rest :
  fields d !! field = Some f → valueGetter f = Some getter →
  getter m (ptr t) = reflect.Ret (Some v) →
  getValue Value_Convert d m t field (k :: rest)
  = (r ← subscripts Value_Convert m (reflect.ValueOf (Some v)) (k :: rest);
     match r with
     | Some vv => terminal Value_Convert m vv
     | None => reflect.Ret None
     end).
Proof. intros Hf Hg Hv. unfold getValue. by rewrite Hf, Hg, Hv. Qed.

Lemma throughPointers_not_pointer m ty p :
  reflect.Type_Kind ty ≠ reflect.Ptr →
  throughPointers m (reflect.V ty p) = reflect.Ret (reflect.V ty p).
Proof. intros Hk. by destruct ty. Qed.

End SubscriptFacts.

(** X9.  Subscripts that give nil.  Let the getter of a field return a
    value that is not a pointer.  If the value is a slice, an array or a
    string, a first subscript that is not a [float64], or whose integer
    part is the length or more, makes [getValue] return nil.  If the value
    is neither a slice, an array, a string nor a map (a number, a boolean,
    a struct, ...), any subscript makes [getValue] return nil.  The
    subscripts that follow are not looked at. *)
Theorem subscripts_that_give_nil {Expr : Type}
    (Value_Convert : Mem → reflect.Value → reflect.type → reflect.outcome reflect.Value)
    (d : @Struct Expr) (m : Mem) (t : TagExpr) (field : string) (f : Field)
    (getter : Getter) (ty : reflect.type) (g : reflect.gval)
    (k : reflect.iface) (rest : list reflect.iface) :
  fields d !! field = Some f → valueGetter f = Some getter →
  getter m (ptr t) = reflect.Ret (Some (ty, g)) →
  (reflect.Type_Kind ty = reflect.Slice ∨ reflect.Type_Kind ty = reflect.Array ∨
   reflect.Type_Kind ty = reflect.String →
   ((∀ x, k ≠ Some (reflect.TBasic reflect.BFloat64, reflect.GFloat x)) →
    getValue Value_Convert d m t field (k :: rest) = reflect.Ret None) ∧
   (∀ x len, k = Some (reflect.TBasic reflect.BFloat64, reflect.GFloat x) →
      reflect.Value_Len m (reflect.V ty (reflect.Held g)) = reflect.Ret len →
      (reflect.int_of_float64 x >= Z.of_nat len)%Z →
      getValue Value_Convert d m t field (k :: rest) = reflect.Ret None)) ∧
  (reflect.Type_Kind ty ∉ [reflect.Ptr; reflect.Slice; reflect.Array; reflect.String;
                            reflect.Map] →
   getValue Value_Convert d m t field (k :: rest) = reflect.Ret None).
Proof.
  intros Hf Hg Hv. rewrite (getValue_root _ _ _ _ _ _ _ _ _ _ Hf Hg Hv).
  cbn [subscripts reflect.ValueOf]. unfold subscript. split.
  - intros Hk. rewrite throughPointers_not_pointer by (destruct Hk as [->|[->| ->]]; done).
    rewrite bind_Ret. cbn [reflect.Value_Kind]. split.
    + intros Hnot.
      destruct k as [[[b| | | | | | | |] g']|];
        try (destruct Hk as [->|[->| ->]]; done).
      destruct b; try (destruct Hk as [->|[->| ->]]; done).
      destruct g'; try (destruct Hk as [->|[->| ->]]; done).
      by destruct (Hnot x).
    + intros x len -> Hlen Hidx.
      destruct Hk as [->|[->| ->]]; cbn zeta; rewrite Hlen, bind_Ret;
        by rewrite decide_True.
  - intros Hk. rewrite throughPointers_not_pointer by set_solver.
    rewrite bind_Ret. cbn [reflect.Value_Kind].
    destruct (reflect.Type_Kind ty); try done; set_solver.
Qed.

Lemma subscripts_that_give_nil_witness :
  getValue basicConvert itemsDescriptor itemsMem at4096 "Xs"
    [Some (tFloat64, reflect.GFloat (S754_finite false 3 0)); keyB]
  = reflect.Ret None.
Proof.
  apply (proj2 (proj1 (subscripts_that_give_nil basicConvert itemsDescriptor
                  itemsMem at4096 "Xs" _ _ (reflect.TSlice tInt)
                  (reflect.GSlice (Some [reflect.GInt 1%Z; reflect.GInt 2%Z; reflect.GInt 3%Z]))
                  _ [keyB] eq_refl eq_refl eq_refl) (or_introl eq_refl))
           (S754_finite false 3 0) 3 eq_refl eq_refl).
  vm_compute. discriminate.
Defined.

(** X10.  Subscripts of a map.  Let the getter of a field return a map.  A
    first subscript that [Convert] cannot convert to the key type (the
    conversion panics, and [safeConvert] recovers) makes [getValue] return
    nil.  A subscript that converts but whose key [MapIndex] does not find
    leaves the zero Value: if another subscript follows, [getValue]
    returns nil; if it is the last one, the final [switch] calls [IsNil()]
    on the zero Value and [getValue] panics. *)
Theorem map_subscripts {Expr : Type}
    (Value_Convert : Mem → reflect.Value → reflect.type → reflect.outcome reflect.Value)
    (d : @Struct Expr) (m : Mem) (t : TagExpr) (field : string) (f : Field)
    (getter : Getter) (kt vt : reflect.type) (g : reflect.gval) (k : reflect.iface) :
  fields d !! field = Some f → valueGetter f = Some getter →
  getter m (ptr t) = reflect.Ret (Some (reflect.TMap kt vt, g)) →
  (∀ e rest, Value_Convert m (reflect.ValueOf k) kt = reflect.Panics e →
     getValue Value_Convert d m t field (k :: rest) = reflect.Ret None) ∧
  (∀ kv, Value_Convert m (reflect.ValueOf k) kt = reflect.Ret kv →
     reflect.Value_IsValid kv = true →
     reflect.Value_MapIndex m (reflect.V (reflect.TMap kt vt) (reflect.Held g)) kv
     = reflect.Ret reflect.VZero →
     (∀ k' rest, getValue Value_Convert d m t field (k :: k' :: rest) = reflect.Ret None) ∧
     getValue Value_Convert d m t field [k]
     = reflect.Panics (reflect.ValueError "reflect.Value.IsNil" reflect.Invalid)).
Proof.
  intros Hf Hg Hv. split.
  - intros e rest Hconv. rewrite (getValue_root _ _ _ _ _ _ _ _ _ _ Hf Hg Hv).
    cbn [subscripts reflect.ValueOf]. unfold subscript.
    rewrite throughPointers_not_pointer by done. rewrite bind_Ret.
    cbn [reflect.Value_Kind reflect.Type_Kind Value_Type reflect.Type_Key].
    unfold safeConvert. cbn [reflect.ValueOf] in Hconv. by rewrite Hconv.
  - intros kv Hconv Hvalid Hidx.
    assert (subscript Value_Convert m (reflect.V (reflect.TMap kt vt) (reflect.Held g)) k
            = reflect.Ret (Some reflect.VZero)) as Hsub.
    { unfold subscript. rewrite throughPointers_not_pointer by done. rewrite bind_Ret.
      cbn [reflect.Value_Kind reflect.Type_Kind Value_Type reflect.Type_Key].
      unfold safeConvert. rewrite Hconv, Hvalid. cbn [negb]. by rewrite Hidx. }
    split.
    + intros k' rest. rewrite (getValue_root _ _ _ _ _ _ _ _ _ _ Hf Hg Hv).
      cbn [subscripts reflect.ValueOf]. rewrite Hsub. done.
    + rewrite (getValue_root _ _ _ _ _ _ _ _ _ _ Hf Hg Hv).
      cbn [subscripts reflect.ValueOf]. rewrite Hsub. done.
Qed.

Lemma map_subscripts_witness :
  getValue basicConvert itemsDescriptor itemsMem at4096 "M" [five] = reflect.Ret None.
Proof.
  apply (proj1 (map_subscripts basicConvert itemsDescriptor itemsMem at4096 "M" _ _
                  tString tInt (reflect.GMap (Some [(reflect.GString "a", reflect.GInt 1%Z)]))
                  five eq_refl eq_refl eq_refl) reflect.ConversionPanic []).
  reflexivity.
Defined.

(** * The fields of a registered type *)

Section OwnFieldFacts.
Context {Expr : Type} {compiler : ExprCompiler Expr}.
Implicit Types (vm : @VM Expr) (p q : loc) (d : @Struct Expr) (field : Field).

Lemma parseExprs_fields fname tag d : fields (parseExprs fname tag d).1 = fields d.
Proof.
  apply (parseExprs_other fname tag d "").
  intros x. by destruct fname.
Qed.

Lemma newField_fields p structField vm :
  p < length (heap vm) →
  (∀ vm' field, newField p structField vm = (vm', Done field) →
     field = {| sf := structField; host := p; valueGetter := None |} ∧
     fields (deref vm' p) = <[Name structField := field]> (fields (deref vm p))) ∧
  (∀ key, key ≠ Name structField →
     fields (deref (newField p structField vm).1 p) !! key = fields (deref vm p) !! key).
Proof.
  intros Hp. unfold newField.
  pose proof (parseExprs_fields (Name structField)
                (StructTag_Get (Tag structField) (tagName vm)) (deref vm p)) as Hf.
  destruct (parseExprs _ _ _) as [d [err|]]; simpl in *.
  - split; [done|]. intros key _. rewrite deref_store by done. by rewrite Hf.
  - split.
    + intros vm' field [= <- <-]. split; [done|]. rewrite deref_store by done.
      simpl. by rewrite Hf.
    + intros key Hkey. rewrite deref_store by done. simpl.
      rewrite lookup_insert_ne by done. by rewrite Hf.
Qed.

Lemma installGetter_sets p (structField : StructField) t ptrDeep vm :
  p < length (heap vm) →
  stripPtr (Typ structField) = (t, ptrDeep) →
  reflect.Type_Kind t ≠ reflect.Struct →
  fields (deref (installGetter p {| sf := structField; host := p; valueGetter := None |}
                   t ptrDeep vm) p) !! Name structField
  = Some {| sf := structField; host := p; valueGetter := getterOf structField |}.
Proof.
  intros Hp Hstrip Hk. unfold getterOf. rewrite Hstrip. rewrite decide_False by done.
  unfold installGetter, setGetter. simpl.
  destruct (reflect.isNumeric (reflect.Type_Kind t)).
  { rewrite deref_store by done. simpl. by rewrite lookup_insert_eq. }
  destruct (reflect.Type_Kind t); rewrite deref_store by done; simpl;
    by rewrite lookup_insert_eq.
Qed.

(** A field entry under a plain name stays while fields of other names are
    registered. *)
Lemma registerFields_keeps_plain register p key structFields :
  (∀ t vm vm' r, register t vm = Some (vm', r) → extends vm vm') →
  occurs "." key = false →
  Forall (λ f, Name f ≠ key) structFields →
  ∀ vm vm' r,
    registerFields register p structFields vm = Some (vm', r) →
    p < length (heap vm) →
    fields (deref vm' p) !! key = fields (deref vm p) !! key.
Proof.
  intros Hreg Hdot. induction structFields as [|structField rest IH];
    intros Hall vm vm' r; simpl.
  { by intros [= <- _]. }
  apply Forall_cons in Hall as [Hne Hall]. specialize (IH Hall).
  intros Hrest Hp.
  pose proof (newField_extends_but p structField vm) as Hnew.
  destruct (newField_fields p structField vm Hp) as [_ Hother].
  specialize (Hother key ltac:(done)).
  pose proof (newField_Done p structField vm) as Hsf.
  destruct (newField p structField vm) as [vm1 [field|err]]; simpl in *.
  2:{ by injection Hrest as <- _. }
  specialize (Hsf _ _ eq_refl).
  assert (Name field = Name structField) as Hname by by rewrite Hsf.
  assert (p < length (heap vm1)) as Hp1 by by eapply extends_but_length.
  rewrite <- Hother. clear Hother.
  destruct (stripPtr (Typ structField)) as [t ptrDeep].
  case_decide.
  - destruct (register (Typ field) vm1) as [[vm2 [sub|err]]|] eqn:Hr; [| |done].
    + apply Hreg in Hr.
      assert (p < length (heap vm2)) as Hp2 by (destruct Hr as (_ & _ & L & _); lia).
      apply IH in Hrest;
        [|by eapply extends_but_length; [apply copySubFields_extends_but|]].
      rewrite Hrest.
      destruct (copySubFields_other p field sub ptrDeep vm2 key Hp2) as [_ Hf2].
      { intros k' Heq. by apply plain_not_dotted in Heq. }
      rewrite Hf2. by rewrite (extends_deref _ _ _ Hr Hp1).
    + injection Hrest as <- _. apply Hreg in Hr. by rewrite (extends_deref _ _ _ Hr Hp1).
  - apply IH in Hrest;
      [|by eapply extends_but_length; [apply installGetter_extends_but|]].
    rewrite Hrest. apply installGetter_other; [done|]. by rewrite Hname.
Qed.

Lemma registerFields_own register p structFields :
  (∀ t vm vm' r, register t vm = Some (vm', r) → extends vm vm') →
  Forall (λ f, occurs "." (Name f) = false) structFields →
  NoDup (Name <$> structFields) →
  ∀ vm vm' s,
    registerFields register p structFields vm = Some (vm', Done s) →
    p < length (heap vm) →
    ∀ f, f ∈ structFields →
      fields (deref vm' p) !! Name f
      = Some {| sf := f; host := p; valueGetter := getterOf f |}.
Proof.
  intros Hreg. induction structFields as [|structField rest IH];
    intros Hdots Hnd vm vm' s Hrun Hp f Hf; [by apply elem_of_nil in Hf|].
  apply Forall_cons in Hdots as [Hdot Hdots]. rewrite fmap_cons in Hnd.
  apply NoDup_cons in Hnd as [Hfresh Hnd].
  simpl in Hrun.
  pose proof (newField_extends_but p structField vm) as Hnew.
  destruct (newField_fields p structField vm Hp) as [Hdone _].
  destruct (newField p structField vm) as [vm1 [field|err]]; [|done]. simpl in Hnew.
  destruct (Hdone _ _ eq_refl) as [-> Hfields1]. clear Hdone.
  assert (p < length (heap vm1)) as Hp1 by by eapply extends_but_length.
  assert (∃ vm3, registerFields register p rest vm3 = Some (vm', Done s) ∧
                 p < length (heap vm3) ∧
                 fields (deref vm3 p) !! Name structField
                 = Some {| sf := structField; host := p;
                           valueGetter := getterOf structField |}) as (vm3 & Hrest & Hp3 & H3).
  { destruct (stripPtr (Typ structField)) as [t ptrDeep] eqn:Hstrip.
    case_decide as Hk.
    - simpl in Hrun.
      destruct (register (Typ structField) vm1) as [[vm2 [sub|err]]|] eqn:Hr; [|done..].
      apply Hreg in Hr.
      assert (p < length (heap vm2)) as Hp2 by (destruct Hr as (_ & _ & L & _); lia).
      eexists. split; [exact Hrun|]. split.
      { by eapply extends_but_length; [apply copySubFields_extends_but|]. }
      destruct (copySubFields_other p {| sf := structField; host := p; valueGetter := None |}
                  sub ptrDeep vm2 (Name structField) Hp2) as [_ ->].
      { intros k' Heq. by apply plain_not_dotted in Heq. }
      rewrite (extends_deref _ _ _ Hr Hp1), Hfields1, lookup_insert_eq.
      unfold getterOf. rewrite Hstrip. by rewrite decide_True.
    - eexists. split; [exact Hrun|]. split.
      { by eapply extends_but_length; [apply installGetter_extends_but|]. }
      by apply installGetter_sets. }
  apply elem_of_cons in Hf as [->|Hf].
  - rewrite (registerFields_keeps_plain register p (Name structField) rest Hreg Hdot)
      with (vm := vm3) (vm' := vm') (r := Done s); try done.
    apply Forall_forall. intros f' Hf' Heq. apply Hfresh. rewrite <- Heq.
    apply list_elem_of_fmap. eauto.
  - by eapply IH.
Qed.

End OwnFieldFacts.

(** X11.  After the successful registration of a struct type that was not
    in the registry, whose field names are different Go identifiers, the
    descriptor has each declared field under its name, with the type's
    descriptor as host and with the getter of its kind: none for a nested
    struct (only its flattened fields are readable), the number, string,
    boolean or container getter at the field's offset and pointer depth,
    and the getter that returns nil for every other kind.  No later step
    of the registration overwrites it. *)
Theorem own_fields_have_their_getter {Expr : Type} {compiler : ExprCompiler Expr}
    (fuel : nat) (env : TypeEnv) (vm vm' : @VM Expr) (nm : string) (p : loc)
    (structFields : list StructField) :
  structJar vm !! nm = None →
  env !! nm = Some structFields →
  Forall (λ f, occurs "." (Name f) = false) structFields →
  NoDup (Name <$> structFields) →
  registerStructLocked fuel env (reflect.TStruct nm) vm = Some (vm', Done p) →
  ∀ f, f ∈ structFields →
    fields (deref vm' p) !! Name f
    = Some {| sf := f; host := p; valueGetter := getterOf f |}.
Proof.
  intros Hjar Henv Hdots Hnd Hreg f Hf.
  destruct fuel as [|fuel]; [done|]. simpl in Hreg.
  unfold getStructType in Hreg. simpl in Hreg. rewrite Hjar, Henv in Hreg. simpl in Hreg.
  pose proof (registerFields_Done _ _ _ _ _ _ Hreg) as ->.
  eapply (registerFields_own _ _ structFields (registerStructLocked_extends fuel env)
            Hdots Hnd _ _ _ Hreg); [|done].
  simpl. rewrite length_app. simpl. lia.
Qed.

Lemma own_fields_have_their_getter_witness :
  fields (deref (registryOf sampleEnv "main.Items") 0) !! "P"
  = Some {| sf := {| Name := "P"; Typ := reflect.TPtr (reflect.TSlice tInt); Tag := [];
                     Offset := 32%Z |};
            host := 0;
            valueGetter := getterOf {| Name := "P"; Typ := reflect.TPtr (reflect.TSlice tInt);
                                       Tag := []; Offset := 32%Z |} |}.
Proof.
  refine (own_fields_have_their_getter 4 sampleEnv (New "te")
            (registryOf sampleEnv "main.Items") "main.Items" 0
            [ {| Name := "Xs"; Typ := reflect.TSlice tInt; Tag := []; Offset := 0%Z |};
              {| Name := "M"; Typ := reflect.TMap tString tInt; Tag := []; Offset := 24%Z |};
              {| Name := "P"; Typ := reflect.TPtr (reflect.TSlice tInt); Tag := [];
                 Offset := 32%Z |} ] _ _ _ _ _
            {| Name := "P"; Typ := reflect.TPtr (reflect.TSlice tInt); Tag := [];
               Offset := 32%Z |} _).
  - reflexivity.
  - reflexivity.
  - repeat constructor.
  - apply (bool_decide_unpack _). by vm_compute.
  - apply registered_Done. vm_compute. reflexivity.
  - do 2 right. left.
Defined.

(** * Selectors and field paths *)

Lemma prefix_at_cons c txt :
  String.prefix "@" (String c txt) = if ascii_dec "@" c then true else false.
Proof.
  change (String.prefix "@" (String c txt))
    with (match ascii_dec "@" c with left _ => String.prefix "" txt | right _ => false end).
  destruct (ascii_dec "@" c); [apply prefix_nil|done].
Qed.

Lemma index_at_cons c txt :
  String.index 0 "@" (String c txt)
  = if ascii_dec "@" c then Some 0
    else match String.index 0 "@" txt with Some n => Some (S n) | None => None end.
Proof.
  change (String.index 0 "@" (String c txt))
    with (if String.prefix "@" (String c txt) then Some 0
          else match String.index 0 "@" txt with Some n => Some (S n) | None => None end).
  rewrite prefix_at_cons. by destruct (ascii_dec "@" c).
Qed.

Lemma strings_Index_at_app x y :
  occurs "@" x = false →
  strings_Index (x +:+ y) "@" = (λ i, String.length x + i) <$> strings_Index y "@".
Proof.
  unfold strings_Index. induction x as [|c x IH]; intros Hx.
  - rewrite app_nil_l. by destruct (String.index 0 "@" y).
  - apply occurs_cons_false in Hx as [Hc Hx]. rewrite app_cons, index_at_cons.
    destruct (ascii_dec "@" c) as [Heq|_]; [congruence|]. rewrite IH by done.
    by destruct (String.index 0 "@" y).
Qed.

Lemma strings_Index_at_none txt :
  occurs "@" txt = false → strings_Index txt "@" = None.
Proof.
  unfold strings_Index. induction txt as [|c txt IH]; intros Hx; [done|].
  apply occurs_cons_false in Hx as [Hc Hx]. rewrite index_at_cons.
  destruct (ascii_dec "@" c) as [Heq|_]; [congruence|]. by rewrite IH.
Qed.

Lemma prefix_to_app_plus x y i :
  prefix_to (String.length x + i) (x +:+ y) = x +:+ prefix_to i y.
Proof.
  unfold prefix_to. induction x as [|c x IH]; [done|].
  rewrite !app_cons. simpl. by rewrite IH.
Qed.

Lemma getFieldSelector_app x y :
  occurs "@" x = false → getFieldSelector (x +:+ y) = x +:+ getFieldSelector y.
Proof.
  intros Hx. unfold getFieldSelector. rewrite strings_Index_at_app by done.
  destruct (strings_Index y "@") as [i|]; simpl; [|done]. apply prefix_to_app_plus.
Qed.

Lemma getFieldSelector_at z : getFieldSelector ("@" +:+ z) = "".
Proof.
  unfold getFieldSelector, strings_Index. rewrite app_cons, app_nil_l, index_at_cons.
  destruct (ascii_dec "@" "@"); [|done]. unfold prefix_to. by destruct z.
Qed.

(** X12.  [getFieldSelector] undoes what [parseExprs] and [copySubFields]
    put around a field name that has no at sign.  Every selector that
    [parseExprs] makes for the field gives back the field name; a selector
    that [copySubFields] has put under the field, [name.k], gives back
    [name.] followed by the field path of [k], which is the key of the
    flattened field; and a selector without at sign is its own field
    path. *)
Theorem getFieldSelector_gives_the_field (fname : string) :
  occurs "@" fname = false →
  (∀ name, getFieldSelector (selectorOf fname name) = fname) ∧
  (∀ k, getFieldSelector (fname +:+ "." +:+ k) = fname +:+ "." +:+ getFieldSelector k) ∧
  getFieldSelector fname = fname.
Proof.
  intros Hf. split; [|split].
  - intros name. unfold selectorOf. case_decide.
    + rewrite getFieldSelector_app by done.
      change "@" with ("@" +:+ ""). by rewrite getFieldSelector_at, app_nil_r.
    + by rewrite getFieldSelector_app, getFieldSelector_at, app_nil_r.
  - intros k. rewrite <- !app_assoc'. rewrite getFieldSelector_app; [done|].
    rewrite occurs_app, Hf. done.
  - unfold getFieldSelector. by rewrite strings_Index_at_none.
Qed.

Lemma getFieldSelector_gives_the_field_witness :
  getFieldSelector ("Addr" +:+ "." +:+ "City@max") = "Addr" +:+ "." +:+ getFieldSelector "City@max".
Proof.
  apply (proj1 (proj2 (getFieldSelector_gives_the_field "Addr" eq_refl))).
Defined.

(** * WarmUp *)

Section WarmUpFacts.
Context {Expr : Type} {compiler : ExprCompiler Expr}.
Implicit Types (vm : @VM Expr).

Lemma WarmUp_app fuel env l1 l2 :
  ∀ vm, WarmUp fuel env (l1 ++ l2) vm
        = match WarmUp fuel env l1 vm with
          | Some (vm1, None) => WarmUp fuel env l2 vm1
          | r => r
          end.
Proof.
  induction l1 as [|v l1 IH]; intros vm; simpl; [done|].
  destruct (reflect.TypeOf v) as [ty|]; [|done].
  destruct (registerStructLocked fuel env ty vm) as [[vm1 [s0|err]]|]; [apply IH|done..].
Qed.

Lemma WarmUp_extends fuel env l :
  ∀ vm vm' err, WarmUp fuel env l vm = Some (vm', err) → extends vm vm'.
Proof.
  induction l as [|v l IH]; intros vm vm' err; simpl.
  { intros [= <- _]. apply extends_refl. }
  destruct (reflect.TypeOf v) as [ty|]; [|intros [= <- _]; apply extends_refl].
  destruct (registerStructLocked fuel env ty vm) as [[vm1 [s0|e]]|] eqn:Hreg; [| |done].
  - intros Hrest%IH. apply registerStructLocked_extends in Hreg.
    destruct Hreg as (J1 & T1 & L1 & H1), Hrest as (J2 & T2 & L2 & H2).
    repeat split; [by etrans|congruence|lia|].
    intros q Hq. rewrite H2, H1; auto with lia.
  - intros [= <- _]. by eapply registerStructLocked_extends.
Qed.

End WarmUpFacts.

(** X13.  [WarmUp] registers its arguments from left to right and stops at
    the first one that is nil or whose registration fails: warming up a
    list in two parts, the second only if the first reported no error, is
    warming up the whole list.  Whatever it returns, the registry keeps
    its entries and the descriptors that existed; what the arguments before
    the failing one have registered stays registered.  A nil argument is
    the nil-interface error. *)
Theorem WarmUp_left_to_right {Expr : Type} {compiler : ExprCompiler Expr}
    (fuel : nat) (env : TypeEnv) (vm : @VM Expr) :
  (∀ l1 l2,
     WarmUp fuel env (l1 ++ l2) vm
     = match WarmUp fuel env l1 vm with
       | Some (vm1, None) => WarmUp fuel env l2 vm1
       | r => r
       end) ∧
  (∀ l, WarmUp fuel env (None :: l) vm = Some (vm, Some ErrWarmUpNil)) ∧
  (∀ l vm' err, WarmUp fuel env l vm = Some (vm', err) → extends vm vm').
Proof.
  split; [intros l1 l2; apply WarmUp_app|]. split; [done|].
  intros l vm' err. apply WarmUp_extends.
Qed.

Lemma WarmUp_left_to_right_witness :
  extends (New (Expr:=string) "te") (registryOf sampleEnv "main.User").
Proof.
  apply (proj2 (proj2 (WarmUp_left_to_right 4 sampleEnv (New "te")))
           [Some (reflect.TStruct "main.User", reflect.GStruct [])]
           (registryOf sampleEnv "main.User") None).
  change (WarmUp 4 sampleEnv [Some (reflect.TStruct "main.User", reflect.GStruct [])] (New "te"))
    with (match registered sampleEnv "main.User" with
          | None => None
          | Some (vm, Fail err) => Some (vm, Some err)
          | Some (vm, Done _) => Some (vm, None)
          end).
  rewrite (registered_Done sampleEnv "main.User" 0); [reflexivity|].
  vm_compute. reflexivity.
Defined.

(** * Eval and its narrowing variants *)



(** * The selectors of a descriptor are different *)

Lemma atted_inj n n' r r' :
  occurs "@" n = false → occurs "@" n' = false →
  n +:+ "@" +:+ r = n' +:+ "@" +:+ r' → n = n' ∧ r = r'.
Proof.
  revert n'. induction n as [|c n IH]; intros [|c' n']; simpl; intros H1 H2 Heq;
    rewrite ?app_cons, ?app_nil_l in Heq.
  - by injection Heq as ->.
  - injection Heq as <- _. by rewrite bool_decide_eq_true_2 in H2.
  - injection Heq as -> _. by rewrite bool_decide_eq_true_2 in H1.
  - injection Heq as -> Heq.
    apply orb_false_iff in H1 as [_ H1]. apply orb_false_iff in H2 as [_ H2].
    destruct (IH n' H1 H2 Heq) as [-> ->]. done.
Qed.

Lemma owner_unique n n' selector :
  identifier n → identifier n' →
  tagged n selector ∨ nested n selector →
  tagged n' selector ∨ nested n' selector → n = n'.
Proof.
  intros [Hd Ha] [Hd' Ha'] [[r ->]|[r ->]] [[r' Heq]|[r' Heq]].
  - by destruct (atted_inj _ _ _ _ Ha Ha' Heq).
  - destruct (at_not_dotted n r n' r' Hd Ha' Heq).
  - symmetry in Heq. destruct (at_not_dotted n' r' n r Hd' Ha Heq).
  - by destruct (dotted_inj _ _ _ _ Hd Hd' Heq).
Qed.

Lemma tagged_not_nested n selector :
  identifier n → tagged n selector → ¬ nested n selector.
Proof. intros [Hd Ha] [r ->] [r' Heq]. destruct (at_not_dotted n r n r' Hd Ha Heq). Qed.

Lemma owned_mono names names' selector :
  (∀ n, n ∈ names → n ∈ names') → owned names selector → owned names' selector.
Proof. intros Hsub (n & Hn & Hsel). exists n. auto. Qed.

Lemma owned_other names n selector :
  Forall identifier names → identifier n → n ∉ names →
  owned names selector → ¬ tagged n selector ∧ ¬ nested n selector.
Proof.
  intros Hnames Hn Hnotin (n0 & Hn0 & Hsel).
  assert (identifier n0) as Hid by (rewrite Forall_forall in Hnames; auto).
  split; intros Hmine; apply Hnotin;
    rewrite (owner_unique n n0 selector Hn Hid); auto.
Qed.

Section DistinctFacts.
Context {Expr : Type} {compiler : ExprCompiler Expr}.
Implicit Types (vm : @VM Expr) (d : @Struct Expr) (p q : loc) (P : string → Prop).

Lemma tidy_impl P Q d : (∀ selector, P selector → Q selector) → tidy P d → tidy Q d.
Proof. intros HPQ (Hnd & Hb & HP). repeat split; auto. Qed.

Lemma tidy_empty P : tidy P (emptyStruct (Expr:=Expr)).
Proof.
  split; [apply NoDup_nil_2|]. split; [apply selectors_bound_empty|].
  intros sel Hsel. by apply elem_of_nil in Hsel.
Qed.

Lemma tidy_addExpr P selector expr d :
  tidy P d → selector ∉ selectorList d → P selector → tidy P (addExpr selector expr d).
Proof.
  intros (Hnd & Hb & HP) Hnew Hsel. split; [|split].
  - simpl. apply NoDup_app. split; [done|]. split; [|apply NoDup_singleton].
    intros x Hx ->%list_elem_of_singleton. done.
  - by apply selectors_bound_addExpr.
  - intros sel. simpl. rewrite elem_of_app, list_elem_of_singleton. intros [Hs| ->]; auto.
Qed.

Lemma tidy_parseExprsLoop P fuel fname raw :
  (∀ selector, tagged fname selector → P selector) →
  ∀ tag d d' err, parseExprsLoop fuel fname raw tag d = Some (d', err) →
    tidy P d → tidy P d'.
Proof.
  intros Htag. induction fuel as [|fuel IH]; intros tag d d' err; simpl; [done|].
  destruct (readPairedSymbol tag "{" "}") as [[subtag tag']|]; [|by intros [= <- _]].
  destruct (strings_Index subtag ":") as [[|i]|]; try by intros [= <- _].
  case_decide; [apply IH|].
  match goal with |- context [exprs d !! ?x] => set (sel := x) end.
  assert (tagged fname sel) as Hsel.
  { unfold sel. case_decide as Heq; [rewrite Heq; by exists ""|by eexists]. }
  destruct (exprs d !! sel) eqn:Hlook; [by intros [= <- _]|].
  case_decide; [by intros [= <- _]|].
  destruct (parseExpr _) as [expr|e]; [|by intros [= <- _]].
  assert (tidy P d → tidy P (addExpr sel expr d)) as Hadd.
  { intros Hd. apply tidy_addExpr; [done| |by apply Htag].
    intros Hin. destruct Hd as (_ & Hb & _). destruct (Hb sel Hin) as [e He]. congruence. }
  case_decide.
  - intros [= <- _]. exact Hadd.
  - intros Hloop Hd. eapply IH; [exact Hloop|]. by apply Hadd.
Qed.

Lemma tidy_parseExprs P fname tag d :
  (∀ selector, tagged fname selector → P selector) →
  (∀ selector, selector ∈ selectorList d → ¬ tagged fname selector) →
  tidy P d → tidy P (parseExprs fname tag d).1.
Proof.
  intros Htag Hfresh Hd. unfold parseExprs. case_decide; [done|].
  assert (tidy P
            (match parseExpr (TrimSpace tag) with
             | Done expr => (addExpr (fname +:+ "@") expr d, None)
             | Fail err => (d, Some err)
             end).1) as Hplain.
  { destruct (parseExpr (TrimSpace tag)); simpl; [|done].
    assert (tagged fname (fname +:+ "@")) as Hsel by (by exists "").
    apply tidy_addExpr; [done| |by apply Htag]. intros Hin. by apply (Hfresh _ Hin). }
  destruct (TrimSpace tag) as [|c rest] eqn:Htxt; [done|].
  destruct c as [[] [] [] [] [] [] [] []]; try exact Hplain.
  destruct (parseExprsLoop _ _ _ _ _) as [[d' err]|] eqn:Hloop; [|done].
  by eapply tidy_parseExprsLoop.
Qed.

Lemma tidy_newField P p structField vm :
  p < length (heap vm) →
  (∀ selector, tagged (Name structField) selector → P selector) →
  (∀ selector, selector ∈ selectorList (deref vm p) → ¬ tagged (Name structField) selector) →
  tidy P (deref vm p) → tidy P (deref (newField p structField vm).1 p).
Proof.
  intros Hp Htag Hfresh Hd. unfold newField.
  pose proof (tidy_parseExprs P (Name structField)
                (StructTag_Get (Tag structField) (tagName vm)) (deref vm p)
                Htag Hfresh Hd) as Hd'.
  destruct (parseExprs _ _ _) as [d' [err|]]; simpl in *; by rewrite deref_store.
Qed.

Lemma tidy_installGetter P p field t ptrDeep vm :
  p < length (heap vm) →
  tidy P (deref vm p) → tidy P (deref (installGetter p field t ptrDeep vm) p).
Proof.
  intros Hp Hd.
  assert (∀ g, tidy P (deref (setGetter p field g vm) p)) as Hset.
  { intros g. unfold setGetter. by rewrite deref_store. }
  unfold installGetter. destruct (reflect.isNumeric _); [apply Hset|].
  destruct (reflect.Type_Kind t); apply Hset.
Qed.

Lemma selectorList_copyField field ptrDeep (l : list (string * Field)) :
  ∀ d, selectorList (foldl (copyField field ptrDeep) d l) = selectorList d.
Proof. induction l as [|[k f] l IH]; intros d; simpl; [done|]. by rewrite IH. Qed.

Lemma selectorList_copyExpr (field : Field) (l : list (string * Expr)) :
  ∀ d, selectorList (foldl (copyExpr field) d l)
       = selectorList d ++ ((λ k, Name field +:+ "." +:+ k) <$> l.*1).
Proof.
  induction l as [|[k e] l IH]; intros d; simpl; [by rewrite (right_id_L [] (++))|].
  rewrite IH. simpl. by rewrite <- (assoc_L (++)).
Qed.

Lemma tidy_copyField P field ptrDeep (l : list (string * Field)) d :
  tidy P d → tidy P (foldl (copyField field ptrDeep) d l).
Proof.
  intros (Hnd & Hb & HP). unfold tidy. rewrite selectorList_copyField.
  split; [done|]. split; [by apply selectors_bound_copyField|done].
Qed.

Lemma tidy_copyExpr P (field : Field) (l : list (string * Expr)) d :
  NoDup l.*1 →
  (∀ selector, nested (Name field) selector → P selector) →
  (∀ selector, selector ∈ selectorList d → ¬ nested (Name field) selector) →
  tidy P d → tidy P (foldl (copyExpr field) d l).
Proof.
  intros Hl Hnest Hfresh (Hnd & Hb & HP). unfold tidy. rewrite selectorList_copyExpr.
  split; [|split].
  - apply NoDup_app. split; [done|]. split.
    + intros sel Hs Hin. apply list_elem_of_fmap in Hin as (k & -> & _).
      apply (Hfresh _ Hs). by exists k.
    + apply NoDup_fmap_2; [|done]. intros k k' Heq. by apply dotted_key_inj in Heq.
  - by apply selectors_bound_copyExpr.
  - intros sel. rewrite elem_of_app. intros [Hs|Hin]; [auto|].
    apply list_elem_of_fmap in Hin as (k & -> & _). apply Hnest. by exists k.
Qed.

Lemma tidy_copySubFields P p (field : Field) q ptrDeep vm :
  p < length (heap vm) →
  (∀ selector, nested (Name field) selector → P selector) →
  (∀ selector, selector ∈ selectorList (deref vm p) → ¬ nested (Name field) selector) →
  tidy P (deref vm p) → tidy P (deref (copySubFields p field q ptrDeep vm) p).
Proof.
  intros Hp Hnest Hfresh Hd. unfold copySubFields.
  rewrite deref_store by (simpl; by rewrite length_insert).
  rewrite (deref_store p _ vm Hp).
  apply tidy_copyExpr; [apply NoDup_fst_map_to_list|done| |by apply tidy_copyField].
  intros sel. rewrite selectorList_copyField. apply Hfresh.
Qed.

Lemma registerFields_tidy register p :
  (∀ t vm vm' r, register t vm = Some (vm', r) → extends vm vm') →
  ∀ structFields names vm vm' r,
    p < length (heap vm) →
    Forall identifier names →
    Forall (λ f : StructField, identifier (Name f)) structFields →
    NoDup (Name <$> structFields) →
    (∀ f : StructField, f ∈ structFields → Name f ∉ names) →
    tidy (owned names) (deref vm p) →
    registerFields register p structFields vm = Some (vm', r) →
    tidy (owned (names ++ (Name <$> structFields))) (deref vm' p).
Proof.
  intros Hreg. induction structFields as [|structField rest IH];
    intros names vm vm' r Hp Hnames Hids Hnd Hnotin Hd; simpl.
  { intros [= <- _]. by rewrite (right_id_L [] (++)). }
  apply Forall_cons in Hids as [Hid Hids]. apply NoDup_cons in Hnd as [Hhd Hnd].
  assert (Name structField ∉ names) as Hnew by (apply Hnotin; left).
  set (P1 := λ selector, owned names selector ∨ tagged (Name structField) selector).
  assert (∀ selector, P1 selector →
            owned (names ++ Name structField :: (Name <$> rest)) selector) as Hweak.
  { intros sel [Ho|Ht].
    - eapply owned_mono; [|exact Ho]. intros n Hn. apply elem_of_app. by left.
    - exists (Name structField). split; [|by left]. apply elem_of_app. right. left. }
  assert (∀ selector, P1 selector → owned (names ++ [Name structField]) selector) as Hweak1.
  { intros sel [Ho|Ht].
    - eapply owned_mono; [|exact Ho]. intros n Hn. apply elem_of_app. by left.
    - exists (Name structField). split; [|by left]. apply elem_of_app. right. left. }
  assert (tidy P1 (deref (newField p structField vm).1 p)) as Hd1.
  { apply tidy_newField; [done|by right| |by eapply tidy_impl; [|exact Hd]; left].
    intros sel Hin. destruct Hd as (_ & _ & Ho).
    by apply (owned_other names (Name structField) sel Hnames Hid Hnew (Ho _ Hin)). }
  pose proof (extends_but_length _ _ _ (newField_extends_but p structField vm) Hp) as Hp1.
  destruct (newField p structField vm) as [vm1 [field|err]] eqn:Hnf; simpl in Hd1, Hp1;
    [|intros [= <- _]; by eapply tidy_impl].
  apply newField_Done in Hnf as Hsf.
  assert (Name field = Name structField) as Hname by (by rewrite Hsf).
  assert (Forall identifier (names ++ [Name structField])) as Hnames1.
  { apply Forall_app. split; [done|]. by apply Forall_singleton. }
  assert (∀ f : StructField, f ∈ rest → Name f ∉ names ++ [Name structField]) as Hnotin1.
  { intros f Hf. rewrite elem_of_app, list_elem_of_singleton. intros [Hin|Heq].
    - apply (Hnotin f); [by right|done].
    - apply Hhd. rewrite <- Heq. apply list_elem_of_fmap. eauto. }
  assert (∀ vm2 vm' r, p < length (heap vm2) →
            tidy (owned (names ++ [Name structField])) (deref vm2 p) →
            registerFields register p rest vm2 = Some (vm', r) →
            tidy (owned (names ++ Name structField :: (Name <$> rest))) (deref vm' p))
    as Hrest.
  { intros vm2 vm0 r0 Hp2 Hd2 Hgo.
    pose proof (IH _ _ _ _ Hp2 Hnames1 Hids Hnd Hnotin1 Hd2 Hgo) as Hfin.
    by rewrite <- (assoc_L (++)) in Hfin. }
  destruct (stripPtr (Typ structField)) as [t ptrDeep].
  case_decide.
  - destruct (register (Typ field) vm1) as [[vm2 [sub|err]]|] eqn:Hr; [| |done].
    + apply Hreg in Hr as Hext.
      assert (p < length (heap vm2)) as Hp2 by (destruct Hext as (_ & _ & L & _); lia).
      rewrite <- (extends_deref _ _ _ Hext Hp1) in Hd1.
      apply Hrest.
      * pose proof (copySubFields_extends_but p field sub ptrDeep vm2) as (_ & _ & L & _).
        lia.
      * apply tidy_copySubFields; [done| | |by eapply tidy_impl].
        -- intros sel Hsel. exists (Name structField). split; [|right; by rewrite <- Hname].
           apply elem_of_app. right. left.
        -- intros sel Hin. rewrite Hname. destruct Hd1 as (_ & _ & HP1).
           destruct (HP1 _ Hin) as [Ho|Ht].
           ++ by apply (owned_other names (Name structField) sel Hnames Hid Hnew Ho).
           ++ by apply tagged_not_nested.
    + intros [= <- _]. apply Hreg in Hr as Hext.
      rewrite (extends_deref _ _ _ Hext Hp1). by eapply tidy_impl.
  - apply Hrest.
    + by apply (extends_but_length _ _ _ (installGetter_extends_but p field t ptrDeep vm1)).
    + apply tidy_installGetter; [done|]. by eapply tidy_impl.
Qed.

End DistinctFacts.

(** X15.  After the registration of a struct type that was not in the
    registry, whose field names are different Go identifiers (no dot and no
    at sign), the selectors of the descriptor's [selectorList] are all
    different, and each one is the name of a declared field followed by an
    at sign (an expression of the field) or by a dot (an expression of a
    nested struct under the field).  [Range] goes through this list, so it
    reports no selector twice. *)
Theorem selectors_are_distinct {Expr : Type} {compiler : ExprCompiler Expr}
    (fuel : nat) (env : TypeEnv) (vm vm' : @VM Expr) (nm : string) (p : loc)
    (structFields : list StructField) :
  structJar vm !! nm = None →
  env !! nm = Some structFields →
  Forall (λ f : StructField, identifier (Name f)) structFields →
  NoDup (Name <$> structFields) →
  registerStructLocked fuel env (reflect.TStruct nm) vm = Some (vm', Done p) →
  NoDup (selectorList (deref vm' p)) ∧
  ∀ selector, selector ∈ selectorList (deref vm' p) →
    owned (Name <$> structFields) selector.
Proof.
  intros Hjar Henv Hids Hnd Hreg.
  destruct fuel as [|fuel]; [done|]. simpl in Hreg.
  unfold getStructType in Hreg. simpl in Hreg. rewrite Hjar, Henv in Hreg. simpl in Hreg.
  pose proof (registerFields_Done _ _ _ _ _ _ Hreg) as ->.
  assert (tidy (owned ([] ++ (Name <$> structFields))) (deref vm' (length (heap vm))))
    as (H1 & _ & H2); [|done].
  refine (registerFields_tidy _ _ (registerStructLocked_extends fuel env) structFields []
            _ _ _ _ _ Hids Hnd _ _ Hreg).
  - simpl. rewrite length_app. simpl. lia.
  - constructor.
  - intros f _ Hin. by apply elem_of_nil in Hin.
  - unfold deref. simpl. rewrite lookup_app_r, Nat.sub_diag by done. apply tidy_empty.
Qed.

Lemma selectors_are_distinct_witness :
  NoDup (selectorList (deref (registryOf sampleEnv "main.ABC") 0)).
Proof.
  apply (selectors_are_distinct 4 sampleEnv (New "te") (registryOf sampleEnv "main.ABC")
           "main.ABC" 0
           [ {| Name := "A"; Typ := tInt; Tag := [("te", "1")]; Offset := 0%Z |};
             {| Name := "B"; Typ := tInt; Tag := [("te", "2")]; Offset := 8%Z |};
             {| Name := "C"; Typ := tInt; Tag := [("te", "3")]; Offset := 16%Z |} ]).
  - reflexivity.
  - reflexivity.
  - repeat constructor.
  - apply (bool_decide_unpack _). by vm_compute.
  - apply registered_Done. vm_compute. reflexivity.
Defined.
